(** * Teacher RAG application: transcript ingestion and query handling

    A shallow embedding of [backend/ingest.py] (subtitle parser, chunk
    assembler, ingestion entry point) and of [backend/main.py] (question
    classifier, casual and retrieval responders), together with the
    properties of these functions.

    Python [str] values are modelled by [string]: a character is a code
    point below 256 (Latin-1), a range closed under [str.lower] that
    holds every character of the literals the functions inspect; the
    persona text, which the handler only passes on, is a parameter.
    Python [int] is [Z], [len] is [String.length] injected into [Z].

    A Python exception is a value of [exn], a computation that may raise
    has a [result] type.  The vector store, the embedding service, the
    language model, the file system and [uuid4] are outside the program:
    the handler takes them as a [World], the ingestion run as an
    [IngestEnv] and a store state.  A generator is modelled by what
    iterating it to its end produces (an [Emission]); the serialization
    of an event to a [data:] line is left out. *)

From Stdlib Require Import ZArith Ascii String List Lia Bool.
From stdpp Require Import base option list gmap strings.
From Equations Require Import Equations.

Local Open Scope Z_scope.

(** ** Python string primitives *)

Module PyStr.

Definition len (s : string) : Z := Z.of_nat (String.length s).

(** Truth value of a string in a condition: non-empty. *)
Definition truthy (s : string) : bool :=
  match s with
  | EmptyString => false
  | String _ _ => true
  end.

(** [str.isspace] on code points below 256: TAB..CR, FS..US, space,
    NEL (0x85) and NBSP (0xA0). *)
Definition is_space (c : ascii) : bool :=
  let n := N_of_ascii c in
  ((9 <=? n) && (n <=? 13) || (28 <=? n) && (n <=? 32)
   || (n =? 133) || (n =? 160))%N.

(** [str.lower] on one code point below 256: A..Z and the Latin-1
    capitals 0xC0..0xDE (0xD7, the multiplication sign, excepted). *)
Definition lower_char (c : ascii) : ascii :=
  let n := N_of_ascii c in
  if ((65 <=? n) && (n <=? 90)
      || (192 <=? n) && (n <=? 222) && negb (n =? 215))%N
  then ascii_of_N (n + 32) else c.

Fixpoint lower (s : string) : string :=
  match s with
  | EmptyString => EmptyString
  | String c s' => String (lower_char c) (lower s')
  end.

Fixpoint lstrip (s : string) : string :=
  match s with
  | EmptyString => EmptyString
  | String c s' => if is_space c then lstrip s' else s
  end.

Fixpoint rstrip (s : string) : string :=
  match s with
  | EmptyString => EmptyString
  | String c s' =>
      let r := rstrip s' in
      if is_space c && negb (truthy r) then EmptyString else String c r
  end.

(** [s.strip()] *)
Definition strip (s : string) : string := rstrip (lstrip s).

(** [s.startswith(p)] *)
Definition startswith (p s : string) : bool := String.prefix p s.

(** [sub in s] *)
Fixpoint contains (sub s : string) : bool :=
  startswith sub s ||
  match s with
  | EmptyString => false
  | String _ s' => contains sub s'
  end.

(** [s.split(sep)] for a non-empty [sep]: the pieces between the
    non-overlapping occurrences of [sep], scanned from the left.
    [skip] counts the characters of a matched separator still to be
    passed over. *)
Fixpoint split_from (sep : string) (skip : nat) (s : string) : list string :=
  match s with
  | EmptyString => [EmptyString]
  | String c s' =>
      match skip with
      | S k => split_from sep k s'
      | O =>
          if startswith sep s
          then EmptyString :: split_from sep (String.length sep - 1) s'
          else match split_from sep O s' with
               | [] => [String c EmptyString]
               | p :: ps => String c p :: ps
               end
      end
  end.

Definition split (sep s : string) : list string := split_from sep O s.

(** [sep.join(ls)] *)
Definition join (sep : string) (ls : list string) : string :=
  String.concat sep ls.

(** [s[:n]] *)
Definition slice_to (n : nat) (s : string) : string :=
  String.substring 0 n s.

End PyStr.

Import PyStr.

(** ** Exceptions and fallible computations *)

Record exn := Exn { exn_type : string; exn_message : string }.

(** [str(e)] *)
Definition str_exn (e : exn) : string := exn_message e.

Definition IndexError : exn := Exn "IndexError" "list index out of range".

Inductive result (A : Type) : Type :=
| Ok (a : A)
| Raise (e : exn).
Arguments Ok {A} a.
Arguments Raise {A} e.

#[global] Instance result_ret : MRet result := fun A a => Ok a.
#[global] Instance result_fmap : FMap result := fun A B f r =>
  match r with
  | Ok a => Ok (f a)
  | Raise e => Raise e
  end.
#[global] Instance result_bind : MBind result := fun A B k r =>
  match r with
  | Ok a => k a
  | Raise e => Raise e
  end.

(** [ls[i]] on a Python list. *)
Definition index {A} (ls : list A) (i : nat) : result A :=
  match ls !! i with
  | Some a => Ok a
  | None => Raise IndexError
  end.

(** ** Chunk assembler ([create_chunks_from_segments]) *)

Record Segment := mkSegment { timestamp : string; text : string }.

Record Chunk := mkChunk {
  chunk_text : string;
  timestamp_start : option string;
  timestamp_end : option string
}.

Definition CHUNK_SIZE : Z := 1000.

(** The local variables of the loop. *)
Record AsmState := mkAsm {
  chunks : list Chunk;
  current_text : string;
  start_timestamp : option string;
  end_timestamp : option string
}.

Definition asm_init : AsmState := mkAsm [] "" None None.

(** Truth value of [start_timestamp]: [None] and the empty string are
    both false. *)
Definition truthy_opt (o : option string) : bool :=
  match o with
  | None => false
  | Some s => truthy s
  end.

(** The guard of the flush. *)
Definition must_flush (chunk_size : Z) (st : AsmState) (segment : Segment) : bool :=
  truthy (current_text st)
  && (len (current_text st) + len (text segment) >? chunk_size).

Definition closed_chunk (st : AsmState) : Chunk :=
  mkChunk (current_text st) (start_timestamp st) (end_timestamp st).

Definition flush (chunk_size : Z) (st : AsmState) (segment : Segment) : AsmState :=
  if must_flush chunk_size st segment
  then mkAsm (chunks st ++ [closed_chunk st]) "" None (end_timestamp st)
  else st.

(** [segment['timestamp'].split('-->')[0].strip()] *)
Definition seg_start (segment : Segment) : string :=
  strip (hd "" (split "-->" (timestamp segment))).

(** [segment['timestamp'].split('-->')[1].strip()] *)
Definition seg_end (segment : Segment) : result string :=
  e ← index (split "-->" (timestamp segment)) 1; Ok (strip e).

Definition fold_segment (st : AsmState) (segment : Segment) : result AsmState :=
  let start :=
    if negb (truthy_opt (start_timestamp st))
    then Some (seg_start segment) else start_timestamp st in
  e ← seg_end segment;
  Ok (mkAsm (chunks st)
        (if truthy (current_text st)
         then current_text st +:+ " " +:+ text segment
         else current_text st +:+ text segment)
        start (Some e)).

(** One iteration of the [for] loop. *)
Definition asm_step (chunk_size : Z) (st : AsmState) (segment : Segment)
  : result AsmState :=
  fold_segment (flush chunk_size st segment) segment.

Fixpoint asm_loop (chunk_size : Z) (st : AsmState) (segments : list Segment)
  : result AsmState :=
  match segments with
  | [] => Ok st
  | segment :: rest =>
      st' ← asm_step chunk_size st segment; asm_loop chunk_size st' rest
  end.

Definition asm_final (st : AsmState) : list Chunk :=
  if truthy (current_text st)
  then chunks st ++ [closed_chunk st]
  else chunks st.

Definition create_chunks_from_segments (segments : list Segment) (chunk_size : Z)
  : result (list Chunk) :=
  st ← asm_loop chunk_size asm_init segments; Ok (asm_final st).

(** ** Transcript parser ([parse_webvtt_content]) *)

(** The one-character string of a line feed. *)
Definition NL : string := String "010"%char EmptyString.

(** The condition that ends the inner [while]: an empty line or a line
    holding the separator. *)
Definition ends_cue (text_line : string) : bool :=
  negb (truthy text_line) || contains "-->" text_line.

(** The inner [while] loop: from index [i] on, append stripped lines to
    [text_lines] until the input ends or [ends_cue] holds; returns the
    index reached and the lines collected. *)
Equations? collect_text (lines : list string) (i : nat) (text_lines : list string)
  : nat * list string by wf (length lines - i)%nat lt :=
  collect_text lines i text_lines with decide (i < length lines)%nat := {
    | right _ => (i, text_lines)
    | left _ with ends_cue (strip (lines !!! i)) := {
        | true => (i, text_lines)
        | false =>
            collect_text lines (i + 1) (text_lines ++ [strip (lines !!! i)]) } }.
Proof. lia. Qed.

Lemma collect_text_index lines i text_lines :
  (i <= fst (collect_text lines i text_lines))%nat.
Proof.
  funelim (collect_text lines i text_lines); simpl; lia.
Qed.

(** [if text_lines: segments.append({...})] *)
Definition append_segment (segments : list Segment) (line : string)
    (text_lines : list string) : list Segment :=
  match text_lines with
  | [] => segments
  | _ :: _ => segments ++ [mkSegment line (join " " text_lines)]
  end.

(** The outer [while] loop. *)
Equations? parse_loop (lines : list string) (i : nat) (segments : list Segment)
  : list Segment by wf (length lines - i)%nat lt :=
  parse_loop lines i segments with decide (i < length lines)%nat := {
    | right _ => segments
    | left _ with contains "-->" (strip (lines !!! i)) := {
        | true =>
            parse_loop lines (fst (collect_text lines (i + 1) []))
              (append_segment segments (strip (lines !!! i))
                 (snd (collect_text lines (i + 1) [])))
        | false => parse_loop lines (i + 1) segments } }.
Proof.
  - pose proof (collect_text_index lines (i + 1) []). lia.
  - lia.
Qed.

Definition parse_webvtt_content (content : string) : list Segment :=
  parse_loop (split NL content) 0 [].

(** ** Question classifier and responders ([query_lecture]) *)

(** A pattern [r'^(a1|a2|...|an)'] with literal alternatives is kept as
    the list of its alternatives. *)
Definition pattern := list string.

(** [re.match(pattern, s)] taken as a truth value: the match is anchored
    at the start of [s] and succeeds when an alternative is a prefix. *)
Definition re_match (p : pattern) (s : string) : bool :=
  existsb (fun alt => startswith alt s) p.

Definition casual_patterns : list pattern := [
  ["hi"; "hello"; "hey"; "good morning"; "good afternoon"; "good evening";
   "greetings"];
  ["how are you"; "how's it going"; "what's up"; "wassup"; "sup"];
  ["who are you"; "what are you"; "tell me about yourself"];
  ["thank you"; "thanks"; "thank"; "ty"];
  ["bye"; "goodbye"; "see you"; "later"];
  ["ok"; "okay"; "alright"; "cool"; "nice"]
].

(** The keys of the [casual_responses] dictionary. *)
Inductive Category :=
| greeting | how_are_you | who_are_you | thanks | bye | ok.

Definition casual_responses (c : Category) : string :=
  match c with
  | greeting => "Hello! I'm your AI Tutor, here to help you learn from Andrew Ng's lectures. Feel free to ask me anything about Generative AI, RAG, Fine-tuning, or any topic from the courses!"
  | how_are_you => "I'm doing great, thank you for asking! I'm ready to help you understand any concepts from the lectures. What would you like to learn about today?"
  | who_are_you => "I'm an AI-powered tutor based on Andrew Ng's teaching style. I can help you understand concepts from the Generative AI courses by answering your questions using the lecture transcripts. How can I assist you?"
  | thanks => "You're very welcome! If you have more questions, I'm always here to help. Keep learning!"
  | bye => "Goodbye! Feel free to come back anytime you have questions. Happy learning!"
  | ok => "Great! If you have any questions about the course material, just ask away!"
  end.

(** [request.question.lower().strip()] *)
Definition normalise (question : string) : string := strip (lower question).

(** [any(re.match(pattern, question_lower) for pattern in casual_patterns)] *)
Definition is_casual (question_lower : string) : bool :=
  existsb (fun p => re_match p question_lower) casual_patterns.

(** The [if]/[elif] chain of [generate_casual]; its last branch is a
    bare [else]. *)
Definition select_category (question_lower : string) : Category :=
  if re_match (casual_patterns !!! 0%nat) question_lower then greeting
  else if re_match (casual_patterns !!! 1%nat) question_lower then how_are_you
  else if re_match (casual_patterns !!! 2%nat) question_lower then who_are_you
  else if re_match (casual_patterns !!! 3%nat) question_lower then thanks
  else if re_match (casual_patterns !!! 4%nat) question_lower then bye
  else ok.

(** The classifier: the category answered on the casual branch, [None]
    when the request goes to retrieval. *)
Definition classify (question : string) : option Category :=
  let question_lower := normalise question in
  if is_casual question_lower then Some (select_category question_lower)
  else None.

(** Metadata values stored with a chunk. *)
Inductive meta_value :=
| MStr (s : string)
| MInt (n : Z)
| MNone.

(** An entry of the [sources] list. *)
Record Source := mkSource {
  src_course : meta_value;
  src_lecture : meta_value;
  src_timestamp_start : meta_value;
  src_timestamp_end : meta_value;
  src_text : string
}.

(** The dictionary handed to [json.dumps] for one server-sent event. *)
Inductive Event :=
| Content (data : string)
| Sources (data : list Source)
| Done.

(** What iterating a generator to its end produces: the values yielded
    and, when the body raised, the exception that ended it. *)
Record Emission := mkEmission {
  events : list Event;
  failure : option exn
}.

(** What the handler hands back to the framework: a streaming response
    around a generator, or a raised [HTTPException]. *)
Inductive Response :=
| StreamingResponse (body : Emission)
| HTTPException (status_code : Z) (detail : string).

(** The first result list of [collection.query]. *)
Record QueryResult := mkQueryResult {
  documents : list string;
  ids : list string;
  metadatas : list (gmap string meta_value)
}.

(** A streamed completion: the [delta.content] of each streamed item, and
    the exception, if any, that ends the iteration after them. *)
Record ModelStream := mkModelStream {
  deltas : list (option string);
  stream_error : option exn
}.

Record Message := mkMessage { role : string; content : string }.

(** The external collaborators of the handler. *)
Record World := mkWorld {
  collection_query : string -> nat -> result QueryResult;
  chat_completions_create : list Message -> result ModelStream
}.

(** Calls made to the external collaborators, oldest first. *)
Inductive Call :=
| CollectionQuery (query_text : string) (n_results : nat)
| ChatCompletion (messages : list Message).

(** [for char in response: yield content event], then the done event. *)
Definition generate_casual (question_lower : string) : Emission :=
  let response := casual_responses (select_category question_lower) in
  mkEmission
    (map (fun char => Content (String char EmptyString))
         (list_ascii_of_string response) ++ [Done])
    None.

(** [documents[i][:200] + "..." if len(documents[i]) > 200 else documents[i]] *)
Definition excerpt (document : string) : string :=
  if len document >? 200 then slice_to 200 document +:+ "..." else document.

(** [metadata.get(key, default)] *)
Definition dict_get (metadata : gmap string meta_value) (key : string)
    (default_value : meta_value) : meta_value :=
  default default_value (metadata !! key).

Definition make_source (metadata : gmap string meta_value) (document : string)
  : Source :=
  mkSource (dict_get metadata "course" (MStr "Unknown"))
           (dict_get metadata "lecture" (MStr "Unknown"))
           (dict_get metadata "timestamp_start" (MStr "00:00:00.000"))
           (dict_get metadata "timestamp_end" (MStr "00:00:00.000"))
           (excerpt document).

(** The loop [for i in range(len(ids))] over the indices still to do. *)
Fixpoint sources_loop (results : QueryResult) (indices : list nat)
    (sources : list Source) : result (list Source) :=
  match indices with
  | [] => Ok sources
  | i :: rest =>
      metadata ← index (metadatas results) i;
      document ← index (documents results) i;
      sources_loop results rest (sources ++ [make_source metadata document])
  end.

Definition build_sources (results : QueryResult) : result (list Source) :=
  sources_loop results (seq 0 (length (ids results))) [].

(** [[f"[ID: {ids[i]}] {doc}" for i, doc in enumerate(documents)]] *)
Fixpoint context_items (results : QueryResult) (i : nat) (docs : list string)
  : result (list string) :=
  match docs with
  | [] => Ok []
  | doc :: rest =>
      id ← index (ids results) i;
      items ← context_items results (i + 1) rest;
      Ok (("[ID: " +:+ id +:+ "] " +:+ doc) :: items)
  end.

Definition build_context (results : QueryResult) : result string :=
  items ← context_items results 0 (documents results);
  Ok (join (NL +:+ NL) items).

Definition closing_message : string :=
  NL +:+ NL +:+ "---" +:+ NL +:+ NL
  +:+ "*You can follow my lectures where I have discussed these topics in more detail. Here are the references:*"
  +:+ NL +:+ NL.

(** [if chunk.choices[0].delta.content:] keeps the fragments that are
    neither [None] nor empty. *)
Definition delta_content (delta : option string) : option string :=
  match delta with
  | Some fragment => if truthy fragment then Some fragment else None
  | None => None
  end.

Section Responder.

(** The persona instruction text, a constant of the module. *)
Variable SYSTEM_PROMPT : string.

Variable w : World.

(** The two messages of the prompt. *)
Definition prompt_messages (context_str question : string) : list Message :=
  [mkMessage "system" SYSTEM_PROMPT;
   mkMessage "user"
     ("Context:" +:+ NL +:+ context_str +:+ NL +:+ NL
      +:+ "Question: " +:+ question)].

(** The body of the generator [generate]. *)
Definition generate (context_str question : string) (sources : list Source)
  : Emission * list Call :=
  let messages := prompt_messages context_str question in
  match chat_completions_create w messages with
  | Raise e => (mkEmission [] (Some e), [ChatCompletion messages])
  | Ok stream =>
      let streamed := map Content (omap delta_content (deltas stream)) in
      match stream_error stream with
      | Some e => (mkEmission streamed (Some e), [ChatCompletion messages])
      | None =>
          (mkEmission
             (streamed ++ [Content closing_message; Sources sources; Done])
             None,
           [ChatCompletion messages])
      end
  end.

(** The part of the [try] block that runs when the question is not
    casual.  The generator object is created here, its body runs only
    when the response is iterated, after the handler has returned. *)
Definition retrieve (question : string)
  : result (Emission * list Call) * list Call :=
  (results ← collection_query w question 5;
   context_str ← build_context results;
   sources ← build_sources results;
   Ok (generate context_str question sources),
   [CollectionQuery question 5]).

(** The handler: the response it gives and the external calls made
    until the response has been streamed. *)
Definition query_lecture (question : string) : Response * list Call :=
  let question_lower := normalise question in
  if is_casual question_lower
  then (StreamingResponse (generate_casual question_lower), [])
  else
    match retrieve question with
    | (Ok (body, calls'), calls) => (StreamingResponse body, calls ++ calls')
    | (Raise e, calls) => (HTTPException 500 (str_exn e), calls)
    end.

End Responder.

(** ** Ingestion entry point ([ingest_data]) *)

Definition COLLECTION_NAME : string := "lecture_transcript".

Definition ValueError (msg : string) : exn := Exn "ValueError" msg.

(** A stored entry: the document text and its metadata (the embedding is
    the store's own business). *)
Record Entry := mkEntry {
  entry_document : string;
  entry_metadata : gmap string meta_value
}.

(** The persisted vector store: collection name to collection, a
    collection being a map from entry id to entry. *)
Abbreviation Collection := (gmap string Entry).
Abbreviation Store := (gmap string (gmap string Entry)).

(** [chroma_client.delete_collection(name)]: raises when there is no
    such collection. *)
Definition delete_collection (name : string) (store : Store) : result Store :=
  match store !! name with
  | Some _ => Ok (delete name store)
  | None => Raise (ValueError ("Collection " +:+ name +:+ " does not exist."))
  end.

(** [chroma_client.create_collection(name)]: raises when the collection
    exists already, creates it empty otherwise. *)
Definition create_collection (name : string) (store : Store) : result Store :=
  match store !! name with
  | Some _ => Raise (ValueError ("Collection " +:+ name +:+ " already exists"))
  | None => Ok (<[name := ∅]> store)
  end.

(** [collection.add(documents, metadatas, ids)]; [outcome] is the
    exception the store or the embedding service answers with, if any. *)
Definition collection_add (outcome : option exn) (docs : list string)
    (metas : list (gmap string meta_value)) (entry_ids : list string)
    (collection : Collection) : result Collection :=
  match outcome with
  | Some e => Raise e
  | None =>
      Ok (foldl (fun c item => <[item.1 := mkEntry item.2.1 item.2.2]> c)
                collection (zip entry_ids (zip docs metas)))
  end.

(** A transcript file of a course folder: its stem and what reading it
    gives. *)
Record LectureFile := mkLectureFile {
  lecture_stem : string;
  lecture_read : result string
}.

Record CourseFolder := mkCourseFolder {
  course_name : string;
  lecture_files : list LectureFile
}.

(** What the run finds outside the program. *)
Record IngestEnv := mkIngestEnv {
  DATA_PATH : string;
  (** the course folders of the data directory, [None] when it is missing *)
  data_dir : option (list CourseFolder);
  (** the identifiers [uuid.uuid4()] hands out, by rank *)
  uuid4 : nat -> string;
  (** the outcome of [collection.add] for the batch starting at an index *)
  add_outcome : nat -> option exn
}.

(** The three parallel lists [all_documents], [all_metadatas], [all_ids]. *)
Record Pending := mkPending {
  all_documents : list string;
  all_metadatas : list (gmap string meta_value);
  all_ids : list string
}.

Definition meta_of_timestamp (t : option string) : meta_value :=
  match t with
  | Some s => MStr s
  | None => MNone
  end.

Definition chunk_metadata (course lecture : string) (idx : nat) (chunk : Chunk)
  : gmap string meta_value :=
  {[ "course" := MStr course;
     "lecture" := MStr lecture;
     "timestamp_start" := meta_of_timestamp (timestamp_start chunk);
     "timestamp_end" := meta_of_timestamp (timestamp_end chunk);
     "chunk_index" := MInt (Z.of_nat idx) ]}.

(** [for idx, chunk in enumerate(chunks)] *)
Fixpoint append_chunks (env : IngestEnv) (course lecture : string) (idx : nat)
    (chunks : list Chunk) (p : Pending) : Pending :=
  match chunks with
  | [] => p
  | chunk :: rest =>
      append_chunks env course lecture (idx + 1) rest
        (mkPending (all_documents p ++ [chunk_text chunk])
                   (all_metadatas p ++ [chunk_metadata course lecture idx chunk])
                   (all_ids p ++ [uuid4 env (length (all_ids p))]))
  end.

(** The body of the loop over lecture files, with its [try]/[except]:
    a file that cannot be read or chunked is skipped. *)
Definition process_lecture (env : IngestEnv) (course : string) (p : Pending)
    (file : LectureFile) : Pending :=
  match (content ← lecture_read file;
         create_chunks_from_segments (parse_webvtt_content content) CHUNK_SIZE) with
  | Ok chunks => append_chunks env course (lecture_stem file) 0 chunks p
  | Raise _ => p
  end.

Definition process_course (env : IngestEnv) (p : Pending) (folder : CourseFolder)
  : Pending :=
  foldl (process_lecture env (course_name folder)) p (lecture_files folder).

Definition batch_size : nat := 50.

(** [range(0, stop, step)] *)
Definition range_step (stop step : nat) : list nat :=
  map (fun k => (k * step)%nat) (seq 0 ((stop + step - 1) / step)).

(** [l[i:j]] *)
Definition slice {A} (l : list A) (i j : nat) : list A :=
  take (j - i) (drop i l).

(** The body of the batch loop, with its [try]/[except]. *)
Definition add_batch (env : IngestEnv) (p : Pending) (collection : Collection)
    (i : nat) : Collection :=
  let end_idx := Nat.min (i + batch_size) (length (all_documents p)) in
  match collection_add (add_outcome env i)
          (slice (all_documents p) i end_idx)
          (slice (all_metadatas p) i end_idx)
          (slice (all_ids p) i end_idx) collection with
  | Ok collection' => collection'
  | Raise _ => collection
  end.

(** [ingest_data]: the outcome of the run and the store it leaves. *)
Definition ingest_data (env : IngestEnv) (store : Store) : result () * Store :=
  (* try: delete_collection(...)  except: pass *)
  let store1 :=
    match delete_collection COLLECTION_NAME store with
    | Ok store' => store'
    | Raise _ => store
    end in
  match create_collection COLLECTION_NAME store1 with
  | Raise e => (Raise e, store1)
  | Ok store2 =>
      match data_dir env with
      | None =>
          (Raise (ValueError ("Data directory not found: " +:+ DATA_PATH env)),
           store2)
      | Some course_folders =>
          let p := foldl (process_course env) (mkPending [] [] []) course_folders in
          let collection :=
            foldl (add_batch env p) ∅
                  (range_step (length (all_documents p)) batch_size) in
          (Ok (), <[COLLECTION_NAME := collection]> store2)
      end
  end.

(** ** Vocabulary of the statements about the assembler *)

(** The text a run of segments folds to. *)
Definition group_text (g : list Segment) : string := join " " (map text g).

(** The start a run of segments leaves in [start_timestamp]: the start
    of the first segment whose start is not the empty string. *)
Fixpoint group_start (g : list Segment) : string :=
  match g with
  | [] => ""
  | s :: g' => if truthy (seg_start s) then seg_start s else group_start g'
  end.

(** A segment as the parser emits them: a text that is not empty and a
    time-range line that holds the separator. *)
Definition seg_ok (s : Segment) : bool :=
  truthy (text s) && contains "-->" (timestamp s).

(** [c] is the chunk of the run [g]. *)
Definition chunk_of_group (g : list Segment) (c : Chunk) : Prop :=
  chunk_text c = group_text g
  /\ timestamp_start c = Some (group_start g)
  /\ exists s e, last g = Some s /\ seg_end s = Ok e /\ timestamp_end c = Some e.

(** Every segment after the first of a run was folded in with the guard
    of the flush false. *)
Definition admissible (T : Z) (g : list Segment) : Prop :=
  forall g1 s g2, g = g1 ++ s :: g2 -> g1 <> [] ->
    len (group_text g1) + len (text s) <= T.

(** A partition into runs is the greedy one: each run is admissible, and
    a run ends only where the next segment trips the guard. *)
Fixpoint greedy (T : Z) (gs : list (list Segment)) : Prop :=
  match gs with
  | [] => True
  | g :: rest =>
      admissible T g
      /\ match rest with
         | [] => True
         | g' :: _ =>
             exists s, head g' = Some s
                       /\ len (group_text g) + len (text s) > T
         end
      /\ greedy T rest
  end.

(** Whatever the segments, a chunk holds the text of one segment or at
    most [T + 1] characters. *)
Definition bounded_text (T : Z) (all : list Segment) (t : string) : Prop :=
  (exists s, s ∈ all /\ t = text s) \/ len t <= T + 1.

(** The accumulator of the loop holds the open run [g]. *)
Definition acc_of_group (g : list Segment) (st : AsmState) : Prop :=
  match g with
  | [] => current_text st = "" /\ start_timestamp st = None
  | _ :: _ =>
      current_text st = group_text g
      /\ start_timestamp st = Some (group_start g)
      /\ exists s e, last g = Some s /\ seg_end s = Ok e
                     /\ end_timestamp st = Some e
  end.

(** A text of [n] letters, for the examples. *)
Fixpoint filler (n : nat) : string :=
  match n with
  | O => EmptyString
  | S n' => String "x"%char (filler n')
  end.

(** A transcript with a header, a numbered cue of two text lines, a cue
    without text and a cue closed by the end of the input. *)
Definition sample_transcript : string :=
  "WEBVTT" +:+ NL +:+ NL
  +:+ "1" +:+ NL +:+ "00:00:01.000 --> 00:00:04.000" +:+ NL
  +:+ "  welcome to " +:+ NL +:+ "the course" +:+ NL +:+ NL
  +:+ "00:00:04.000 --> 00:00:05.000" +:+ NL
  +:+ "00:00:05.000 --> 00:00:09.000" +:+ NL +:+ "today: RAG".

(** ** Vocabulary of the statements about the parser *)

(** A string of whitespace only. *)
Fixpoint all_space (s : string) : bool :=
  match s with
  | EmptyString => true
  | String c s' => is_space c && all_space s'
  end.

(** A line that introduces a cue: once stripped it holds the separator. *)
Definition is_time_range (l : string) : bool := contains "-->" (strip l).

(** A blank line: empty, or whitespace only. *)
Definition is_blank (l : string) : bool := all_space l.

(** A text line of a cue: neither a blank line nor a time-range line. *)
Definition is_text_line (l : string) : bool :=
  negb (is_blank l) && negb (is_time_range l).

(** A cue block: its time-range line and the text lines that follow it. *)
Record Cue := mkCue { cue_line : string; cue_text_lines : list string }.

(** [Cues lines cs]: the cues of [lines], in order.  A line that is not a
    time-range line and follows no cue is outside any cue; a time-range
    line opens a cue made of the longest run of text lines after it,
    which the next time-range line, a blank line or the end of the input
    closes. *)
Inductive Cues : list string -> list Cue -> Prop :=
| Cues_nil : Cues [] []
| Cues_outside l ls cs :
    is_time_range l = false -> Cues ls cs -> Cues (l :: ls) cs
| Cues_cue l texts rest cs :
    is_time_range l = true ->
    Forall (fun t => is_text_line t = true) texts ->
    (forall l' rest', rest = l' :: rest' -> is_text_line l' = false) ->
    Cues rest cs ->
    Cues (l :: texts ++ rest) (mkCue l texts :: cs).

(** The segment of a cue, when it has a text line. *)
Definition segment_of_cue (c : Cue) : option Segment :=
  match cue_text_lines c with
  | [] => None
  | _ :: _ =>
      Some (mkSegment (strip (cue_line c))
                      (join " " (map strip (cue_text_lines c))))
  end.

(** ** Vocabulary of the statements about the classifier *)

(** The categories in the order of their patterns. *)
Definition priority_table : list (pattern * Category) :=
  zip casual_patterns [greeting; how_are_you; who_are_you; thanks; bye; ok].

(** First match wins: the category of the first pattern of the table
    that matches, if any. *)
Definition first_match (s : string) : option Category :=
  (fun found => found.2.2)
    <$> list_find (fun entry => re_match entry.1 s = true) priority_table.

(** ** Vocabulary of the statements about the responders *)

(** What the [try] block computes before the generator is created. *)
Definition prepare (w : World) (question : string)
  : result (string * list Source) :=
  results ← collection_query w question 5;
  context_str ← build_context results;
  sources ← build_sources results;
  Ok (context_str, sources).

Definition is_sources (e : Event) : bool :=
  match e with
  | Sources _ => true
  | _ => false
  end.

Definition is_done (e : Event) : bool :=
  match e with
  | Done => true
  | _ => false
  end.

(** How many events of a kind a stream holds. *)
Definition count_events (kind : Event -> bool) (evs : list Event) : nat :=
  length (List.filter kind evs).

(** The complete stream of the retrieval branch. *)
Definition complete_stream (fragments : list string) (sources : list Source)
  : list Event :=
  map Content fragments ++ [Content closing_message; Sources sources; Done].

(** A store answer with one chunk. *)
Definition one_chunk : QueryResult :=
  mkQueryResult ["Fine-tuning adapts a pretrained model."] ["id-1"]
    [{[ "course" := MStr "GenAI"; "lecture" := MStr "Fine-tuning";
        "timestamp_start" := MStr "00:00:01.000";
        "timestamp_end" := MStr "00:01:00.000"; "chunk_index" := MInt 0 ]}].

(** A world whose completion stream breaks after its first fragment. *)
Definition world_stream_breaks : World :=
  mkWorld (fun _ _ => Ok one_chunk)
          (fun _ => Ok (mkModelStream [Some "Fine-tuning"; None]
                          (Some (Exn "APIError" "connection lost")))).

(** A world whose model refuses the call. *)
Definition world_model_down : World :=
  mkWorld (fun _ _ => Ok one_chunk)
          (fun _ => Raise (Exn "AuthenticationError" "invalid api key")).

(** A world whose store and model both answer. *)
Definition world_up : World :=
  mkWorld (fun _ _ => Ok one_chunk)
          (fun _ => Ok (mkModelStream [Some "Good "; Some ""; None; Some "question"]
                          None)).

(** ** Vocabulary of the further statements *)

(** A chunk fit for storage: a text that is not empty and both ends of
    its time range set. *)
Definition chunk_well_formed (c : Chunk) : Prop :=
  chunk_text c <> "" /\ is_Some (timestamp_start c) /\ is_Some (timestamp_end c).

(** A string as the parser leaves it in a segment: stripping it changes
    nothing and it holds no line feed. *)
Definition tidy (s : string) : Prop :=
  strip s = s /\ contains NL s = false.

(** The metadata of a stored chunk: the five keys, with strings for the
    course, the lecture and both timestamps and an integer for the
    position. *)
Definition stored_metadata (m : gmap string meta_value) : Prop :=
  exists course lecture t_start t_end (idx : nat),
    m = {[ "course" := MStr course;
           "lecture" := MStr lecture;
           "timestamp_start" := MStr t_start;
           "timestamp_end" := MStr t_end;
           "chunk_index" := MInt (Z.of_nat idx) ]}.

(** The three lists of the pending chunks go together, and the
    identifiers are those handed out so far, in order. *)
Definition parallel (env : IngestEnv) (p : Pending) : Prop :=
  length (all_documents p) = length (all_ids p)
  /\ length (all_metadatas p) = length (all_ids p)
  /\ all_ids p = map (uuid4 env) (seq 0 (length (all_ids p))).

(** The [chunk_index] values of a list of metadata. *)
Definition chunk_indices (metas : list (gmap string meta_value))
  : list meta_value :=
  omap (fun m => m !! "chunk_index") metas.

(** A folder with one lecture of three short cues, for the examples. *)
Definition sample_file : LectureFile :=
  mkLectureFile "Lecture 1"
    (Ok ("0 --> 1" +:+ NL +:+ "a" +:+ NL +:+ NL +:+ "1 --> 2" +:+ NL +:+ "b")).

(** The entry the pending lists hold under an identifier. *)
Definition pending_entry (p : Pending) (id : string) (e : Entry) : Prop :=
  exists k doc meta,
    all_ids p !! k = Some id /\ all_documents p !! k = Some doc
    /\ all_metadatas p !! k = Some meta /\ e = mkEntry doc meta.

(** The same, for a position within the batch that starts at [i]. *)
Definition batch_entry (p : Pending) (i : nat) (id : string) (e : Entry)
  : Prop :=
  exists k doc meta,
    (i <= k < i + batch_size)%nat
    /\ all_ids p !! k = Some id /\ all_documents p !! k = Some doc
    /\ all_metadatas p !! k = Some meta /\ e = mkEntry doc meta.

(** One line of the context block. *)
Definition context_line (id doc : string) : string :=
  "[ID: " +:+ id +:+ "] " +:+ doc.

(** The text a client puts together from the content events of a
    stream. *)
Definition content_text (evs : list Event) : string :=
  join "" (omap (fun ev => match ev with
                           | Content data => Some data
                           | _ => None
                           end) evs).

(** The chunks of a lecture file: none when it cannot be read. *)
Definition lecture_chunks (file : LectureFile) : list Chunk :=
  match lecture_read file with
  | Ok content =>
      match create_chunks_from_segments (parse_webvtt_content content)
              CHUNK_SIZE with
      | Ok chunks => chunks
      | Raise _ => []
      end
  | Raise _ => []
  end.

(** The chunks collected from the course folders. *)
Definition collect_pending (env : IngestEnv) (folders : list CourseFolder)
  : Pending :=
  foldl (process_course env) (mkPending [] [] []) folders.

(** One when the accumulator holds text, zero otherwise. *)
Definition open_chunk (st : AsmState) : nat :=
  if truthy (current_text st) then 1%nat else 0%nat.

(** * Properties *)

(** ** The functions on examples *)

Example split_time_range :
  split "-->" "00:01 --> 00:02" = ["00:01 "; " 00:02"].
Proof. reflexivity. Qed.

Example split_twice : split "-->" "a-->b-->" = ["a"; "b"; ""].
Proof. reflexivity. Qed.

Example split_lines : split NL ("a" +:+ NL +:+ NL +:+ "b") = ["a"; ""; "b"].
Proof. reflexivity. Qed.

Example strip_both_ends : strip ("  a b " +:+ NL) = "a b".
Proof. reflexivity. Qed.

Example lower_mixed : lower "Who Are YOU?" = "who are you?".
Proof. reflexivity. Qed.

Example parse_sample :
  parse_webvtt_content sample_transcript
  = [mkSegment "00:00:01.000 --> 00:00:04.000" "welcome to the course";
     mkSegment "00:00:05.000 --> 00:00:09.000" "today: RAG"].
Proof. reflexivity. Qed.

Example chunks_of_sample :
  create_chunks_from_segments (parse_webvtt_content sample_transcript) 25
  = Ok [mkChunk "welcome to the course" (Some "00:00:01.000")
                (Some "00:00:04.000");
        mkChunk "today: RAG" (Some "00:00:05.000") (Some "00:00:09.000")].
Proof. reflexivity. Qed.

(** Three cues of 400 characters with the default threshold: the first
    two share a chunk, the third is alone. *)
Example three_cues_two_chunks :
  map chunk_text <$>
    create_chunks_from_segments
      [mkSegment "0 --> 1" (filler 400); mkSegment "1 --> 2" (filler 400);
       mkSegment "2 --> 3" (filler 400)] CHUNK_SIZE
  = Ok [filler 400 +:+ " " +:+ filler 400; filler 400].
Proof. vm_compute. reflexivity. Qed.

Example separator_missing :
  create_chunks_from_segments [mkSegment "00:01" "a"] CHUNK_SIZE
  = Raise IndexError.
Proof. reflexivity. Qed.

Example excerpt_long :
  excerpt (filler 201) = filler 200 +:+ "..." /\ excerpt (filler 200) = filler 200.
Proof. split; vm_compute; reflexivity. Qed.

Example history_is_a_greeting : classify "History of attention?" = Some greeting.
Proof. reflexivity. Qed.

(** ** Strings *)

Lemma app_cons c s t : String c s +:+ t = String c (s +:+ t).
Proof. reflexivity. Qed.

Lemma app_empty_l t : "" +:+ t = t.
Proof. reflexivity. Qed.

Lemma app_empty_r s : s +:+ "" = s.
Proof. induction s as [|c s IH]; [done|]. by rewrite app_cons, IH. Qed.

Lemma app_assoc' s t u : (s +:+ t) +:+ u = s +:+ t +:+ u.
Proof. induction s as [|c s IH]; [done|]. by rewrite !app_cons, IH. Qed.

Lemma len_app s t : len (s +:+ t) = len s + len t.
Proof.
  unfold len. induction s as [|c s IH]; [done|].
  rewrite app_cons. cbn [String.length]. lia.
Qed.

Lemma len_nonneg s : 0 <= len s.
Proof. unfold len. lia. Qed.

Lemma truthy_true s : truthy s = true <-> s <> "".
Proof. by destruct s. Qed.

Lemma truthy_false s : truthy s = false <-> s = "".
Proof. by destruct s. Qed.

Lemma truthy_app_l s t : truthy s = true -> truthy (s +:+ t) = true.
Proof. by destruct s. Qed.

Lemma truthy_len s : truthy s = true -> 0 < len s.
Proof. destruct s; [done|]. unfold len. cbn [String.length]. lia. Qed.

Lemma join_cons sep x y l :
  join sep (x :: y :: l) = x +:+ sep +:+ join sep (y :: l).
Proof. reflexivity. Qed.

Lemma join_snoc sep l x :
  l <> [] -> join sep (l ++ [x]) = join sep l +:+ sep +:+ x.
Proof.
  induction l as [|y l IH]; [done|]. intros _.
  destruct l as [|z l]; [done|].
  change ((y :: z :: l) ++ [x]) with (y :: z :: (l ++ [x])).
  rewrite !join_cons. change (z :: l ++ [x]) with ((z :: l) ++ [x]).
  rewrite IH by done. by rewrite !app_assoc'.
Qed.

Lemma join_app sep l1 l2 :
  l1 <> [] -> l2 <> [] ->
  join sep (l1 ++ l2) = join sep l1 +:+ sep +:+ join sep l2.
Proof.
  intros H1 H2. revert l1 H1.
  induction l2 as [|x l2 IH] using rev_ind; [done|]. intros l1 H1.
  destruct l2 as [|y l2 _] using rev_ind.
  - by apply join_snoc.
  - rewrite app_assoc. rewrite (join_snoc _ (l1 ++ _)), (join_snoc _ (l2 ++ [y])).
    + rewrite IH; [|by destruct l2|done]. by rewrite !app_assoc'.
    + by destruct l2.
    + by destruct l1.
Qed.

Lemma join_truthy sep l x :
  head l = Some x -> truthy x = true -> truthy (join sep l) = true.
Proof.
  destruct l as [|y [|z l]]; intros [= ->] Hx; [done|].
  rewrite join_cons. by apply truthy_app_l.
Qed.

Lemma split_from_nonempty sep skip s : split_from sep skip s <> [].
Proof.
  revert skip. induction s as [|c s IH]; intros skip; [done|].
  cbn [split_from]. destruct skip as [|k]; [|apply IH].
  destruct (startswith sep (String c s)); [done|].
  by destruct (split_from sep 0 s).
Qed.

Lemma contains_split sep s :
  truthy sep = true -> contains sep s = true ->
  (2 <= length (split sep s))%nat.
Proof.
  intros Hsep. unfold split. induction s as [|c s IH]; intros Hc.
  - destruct sep; [done|]. by cbn in Hc.
  - cbn [split_from]. cbn [contains] in Hc.
    destruct (startswith sep (String c s)) eqn:Hp.
    + pose proof (split_from_nonempty sep (String.length sep - 1) s).
      destruct (split_from sep (String.length sep - 1) s); [done|].
      cbn [length]. lia.
    + cbn [orb] in Hc. specialize (IH Hc).
      destruct (split_from sep 0 s); cbn [length] in *; lia.
Qed.

Lemma seg_end_ok s :
  contains "-->" (timestamp s) = true -> exists e, seg_end s = Ok e.
Proof.
  intros Hc. apply (contains_split "-->") in Hc; [|done].
  unfold seg_end, index.
  destruct (split "-->" (timestamp s)) as [|a [|b l]]; cbn [length] in Hc;
    try lia.
  by eexists.
Qed.

(** ** Assembler: the loop invariant *)

Lemma group_text_truthy g :
  Forall (fun s => seg_ok s = true) g -> g <> [] ->
  truthy (group_text g) = true.
Proof.
  intros Hok Hne. destruct g as [|s g]; [done|].
  apply (join_truthy _ _ (text s)); [done|].
  apply Forall_cons_1 in Hok as [Hs _].
  unfold seg_ok in Hs. by apply andb_true_iff in Hs as [? _].
Qed.

Lemma group_text_snoc g s :
  g <> [] -> group_text (g ++ [s]) = group_text g +:+ " " +:+ text s.
Proof.
  intros Hne. unfold group_text. rewrite map_app. apply join_snoc.
  by destruct g.
Qed.

Lemma group_start_snoc g s :
  group_start (g ++ [s])
  = if truthy (group_start g) then group_start g else seg_start s.
Proof.
  induction g as [|x g IH]; cbn [app group_start].
  - destruct (truthy (seg_start s)) eqn:E; [done|].
    by apply truthy_false in E.
  - destruct (truthy (seg_start x)) eqn:E; [by rewrite E|done].
Qed.

Lemma admissible_nil T : admissible T [].
Proof. intros g1 s g2 H. by destruct g1. Qed.

Lemma admissible_singleton T s : admissible T [s].
Proof.
  intros g1 x g2 H Hne. destruct g1 as [|y g1]; [done|].
  injection H as _ H. by destruct g1.
Qed.

Lemma admissible_snoc T g s :
  admissible T g ->
  (g <> [] -> len (group_text g) + len (text s) <= T) ->
  admissible T (g ++ [s]).
Proof.
  intros Hg Hs g1 x g2 Heq Hne.
  destruct g2 as [|y g2 _] using rev_ind.
  - apply (app_inj_tail g g1 s x) in Heq as [-> ->]. by apply Hs.
  - rewrite app_comm_cons, app_assoc in Heq.
    apply app_inj_tail in Heq as [-> _]. by apply (Hg g1 x g2).
Qed.

Lemma fold_segment_spec st g s :
  Forall (fun s => seg_ok s = true) g -> seg_ok s = true ->
  acc_of_group g st ->
  exists st1, fold_segment st s = Ok st1
              /\ chunks st1 = chunks st /\ acc_of_group (g ++ [s]) st1.
Proof.
  intros Hg Hs Hacc.
  unfold seg_ok in Hs. apply andb_true_iff in Hs as [Htxt Hts].
  destruct (seg_end_ok s Hts) as [e He].
  unfold fold_segment. rewrite He. cbn. eexists. split; [done|].
  split; [done|].
  destruct g as [|x g].
  - destruct Hacc as [-> ->]. cbn.
    repeat split; [| by exists s, e].
    f_equal. destruct (truthy (seg_start s)) eqn:E; [done|].
    by apply truthy_false in E.
  - destruct Hacc as (Htext & Hstart & _).
    assert (Hne : x :: g <> []) by done.
    pose proof (group_text_truthy _ Hg Hne) as Htr.
    change ((x :: g) ++ [s]) with (x :: (g ++ [s])).
    change (x :: (g ++ [s])) with ((x :: g) ++ [s]).
    destruct ((x :: g) ++ [s]) as [|y l] eqn:El; [by destruct g|].
    rewrite <- El. cbn [current_text start_timestamp end_timestamp].
    rewrite Htext, Htr, Hstart.
    repeat split.
    + by rewrite group_text_snoc.
    + rewrite group_start_snoc. cbn [truthy_opt].
      by destruct (truthy (group_start (x :: g))).
    + exists s, e. by rewrite last_snoc.
Qed.

Lemma chunk_of_group_nonempty g c : chunk_of_group g c -> g <> [].
Proof. intros (_ & _ & s & e & Hl & _) ->. done. Qed.

Lemma head_concat_app (gs : list (list Segment)) g s rest :
  Forall (fun g => g <> []) gs -> (gs = [] -> g <> []) ->
  s :: rest = concat gs ++ g ->
  exists g1, head (gs ++ [g]) = Some g1 /\ head g1 = Some s.
Proof.
  intros Hne Hg Heq. destruct gs as [|g1 gs].
  - cbn in *. exists g. split; [done|].
    destruct g; [by destruct Hg|]. by injection Heq as -> _.
  - exists g1. split; [done|].
    apply Forall_cons_1 in Hne as [H1 _].
    destruct g1; [done|]. by injection Heq as -> _.
Qed.

Section AssemblerLoop.

Variable T : Z.

Lemma asm_loop_spec segs : forall st g0,
  Forall (fun s => seg_ok s = true) segs ->
  Forall (fun s => seg_ok s = true) g0 ->
  acc_of_group g0 st -> admissible T g0 ->
  exists st' gs g cs,
    asm_loop T st segs = Ok st'
    /\ g0 ++ segs = concat gs ++ g
    /\ chunks st' = chunks st ++ cs
    /\ Forall2 chunk_of_group gs cs
    /\ acc_of_group g st'
    /\ Forall (fun s => seg_ok s = true) g
    /\ greedy T (gs ++ [g])
    /\ (g = [] -> g0 = [] /\ segs = []).
Proof.
  induction segs as [|s segs IH]; intros st g0 Hsegs Hg0 Hacc Hadm.
  - exists st, [], g0, []. rewrite !app_nil_r. cbn.
    repeat split; done.
  - apply Forall_cons_1 in Hsegs as [Hs Hsegs].
    cbn [asm_loop]. unfold asm_step, flush.
    destruct (must_flush T st s) eqn:Hfl.
    + (* the accumulator is closed, the segment opens a new run *)
      unfold must_flush in Hfl. apply andb_true_iff in Hfl as [Htr Hgt].
      apply Z.gtb_lt in Hgt.
      destruct g0 as [|x g0]; [destruct Hacc as [E _]; by rewrite E in Htr|].
      destruct Hacc as (Htext & Hstart & Hend).
      set (st0 := mkAsm (chunks st ++ [closed_chunk st]) "" None
                        (end_timestamp st)).
      destruct (fold_segment_spec st0 [] s) as (st1 & Hf & Hch & Hacc1);
        [done..|].
      rewrite Hf. cbn [mbind result_bind].
      destruct (IH st1 [s]) as (st' & gs & g & cs & Hl & Hp & Hcs & HF & Ha
                                & Hok & Hgr & Hnil);
        [done|by apply Forall_singleton|done|apply admissible_singleton|].
      exists st', ((x :: g0) :: gs), g, (closed_chunk st :: cs).
      split; [done|]. split; [cbn [concat]; by rewrite <- app_assoc, <- Hp|].
      split; [rewrite Hcs, Hch; subst st0; cbn [chunks]; by rewrite <- app_assoc|].
      split.
      { constructor; [|done]. by repeat split. }
      split; [done|]. split; [done|]. split.
      { change (((x :: g0) :: gs) ++ [g]) with ((x :: g0) :: (gs ++ [g])).
        cbn [greedy]. split; [done|]. split; [|done].
        destruct (head_concat_app gs g s segs) as (g1 & Hh & Hhs); [| |done|].
        { eapply Forall2_Forall_l; [done|].
          apply Forall_true. intros ? ?. apply chunk_of_group_nonempty. }
        { intros _ E. by destruct (Hnil E). }
        destruct (gs ++ [g]) as [|g' l]; [done|]. injection Hh as ->.
        exists s. split; [done|]. rewrite <- Htext. lia. }
      intros E. by destruct (Hnil E).
    + (* the segment joins the open run *)
      destruct (fold_segment_spec st g0 s) as (st1 & Hf & Hch & Hacc1);
        [done..|].
      rewrite Hf. cbn [mbind result_bind].
      destruct (IH st1 (g0 ++ [s])) as (st' & gs & g & cs & Hl & Hp & Hcs & HF
                                        & Ha & Hok & Hgr & Hnil);
        [done|by apply Forall_app; split; [|apply Forall_singleton]|done| |].
      { apply admissible_snoc; [done|]. intros Hne.
        unfold must_flush in Hfl.
        destruct g0 as [|x g0]; [done|]. destruct Hacc as (Htext & _).
        rewrite Htext, (group_text_truthy _ Hg0 Hne) in Hfl.
        cbn [andb] in Hfl. rewrite Z.gtb_ltb in Hfl.
        by apply Z.ltb_ge in Hfl. }
      exists st', gs, g, cs.
      split; [done|]. split; [by rewrite <- Hp, <- app_assoc|].
      split; [by rewrite Hcs, Hch|].
      do 4 (split; [done|]).
      intros E. destruct (Hnil E) as [E' _]. by destruct g0.
Qed.

End AssemblerLoop.

Lemma greedy_app_nil T gs : greedy T (gs ++ [[]]) -> greedy T gs.
Proof.
  induction gs as [|g gs IH]; [done|].
  change ((g :: gs) ++ [[]]) with (g :: (gs ++ [[]])). cbn [greedy].
  intros (Ha & Hm & Hg). split; [done|]. split; [|by apply IH].
  destruct gs as [|g' gs]; [done|]. exact Hm.
Qed.

(** On segments as the parser emits them the assembler returns, and its
    chunks are the chunks of the greedy partition of the input. *)
Lemma create_chunks_spec segs T :
  Forall (fun s => seg_ok s = true) segs ->
  exists cs gs,
    create_chunks_from_segments segs T = Ok cs
    /\ concat gs = segs
    /\ Forall2 chunk_of_group gs cs
    /\ greedy T gs.
Proof.
  intros Hok.
  destruct (asm_loop_spec T segs asm_init []) as
    (st' & gs & g & cs & Hl & Hp & Hcs & HF & Ha & Hg & Hgr & Hnil);
    [done|done|done|apply admissible_nil|].
  unfold create_chunks_from_segments. rewrite Hl. cbn [mbind result_bind].
  cbn in Hp, Hcs. unfold asm_final.
  destruct g as [|x g].
  - destruct Ha as [-> _]. cbn [truthy]. exists cs, gs.
    rewrite app_nil_r in Hp. rewrite Hcs.
    split; [done|]. split; [done|]. split; [done|].
    by apply greedy_app_nil.
  - assert (Hne : x :: g <> []) by done.
    pose proof (group_text_truthy _ Hg Hne) as Htr.
    destruct Ha as (Htext & Hstart & Hend).
    rewrite Htext, Htr. exists (cs ++ [closed_chunk st']), (gs ++ [x :: g]).
    rewrite Hcs. split; [done|].
    split; [by rewrite concat_app, Hp; cbn; rewrite app_nil_r|].
    split; [|done].
    apply Forall2_app; [done|]. constructor; [|done]. by repeat split.
Qed.

Lemma seg_end_raises s :
  contains "-->" (timestamp s) = false -> seg_end s = Raise IndexError.
Proof.
  unfold seg_end, index, split. generalize (timestamp s) as ts.
  assert (H : forall ts, contains "-->" ts = false ->
                         exists p, split_from "-->" 0 ts = [p]).
  { induction ts as [|c ts IH]; intros Hc; [by eexists|].
    cbn [contains] in Hc. apply orb_false_iff in Hc as [Hp Hc].
    cbn [split_from]. rewrite Hp. destruct (IH Hc) as [p ->]. by eexists. }
  intros ts Hc. by destruct (H ts Hc) as [p ->].
Qed.

(** A time-range line without the separator makes the assembler raise:
    the hypothesis of [create_chunks_spec] on the time-range lines is the
    condition under which there are chunks at all. *)
Lemma create_chunks_raises segs T :
  Exists (fun s => contains "-->" (timestamp s) = false) segs ->
  create_chunks_from_segments segs T = Raise IndexError.
Proof.
  intros Hex. unfold create_chunks_from_segments.
  assert (H : forall st, asm_loop T st segs = Raise IndexError).
  { induction Hex as [s segs Hs|s segs Hex IH]; intros st; cbn [asm_loop].
    - unfold asm_step, fold_segment. by rewrite (seg_end_raises s Hs).
    - destruct (asm_step T st s) as [st1|e] eqn:E; cbn [mbind result_bind].
      + apply IH.
      + unfold asm_step, fold_segment in E.
        destruct (seg_end s) as [e'|e'] eqn:E'; [done|].
        cbn in E. injection E as <-.
        unfold seg_end in E'.
        destruct (index (split "-->" (timestamp s)) 1) as [a|e''] eqn:E'';
          [done|]. cbn in E'. injection E' as <-.
        unfold index in E''.
        by destruct (split "-->" (timestamp s) !! 1%nat); [|injection E'' as <-]. }
  by rewrite H.
Qed.

Lemma join_groups gs :
  Forall (fun g : list Segment => g <> []) gs ->
  join " " (map group_text gs) = join " " (map text (concat gs)).
Proof.
  induction gs as [|g gs IH]; [done|]. intros Hne.
  apply Forall_cons_1 in Hne as [Hg Hgs]. cbn [concat]. rewrite map_app.
  destruct gs as [|g' gs]; [cbn; by rewrite app_nil_r|].
  cbn [map]. rewrite join_cons. change (group_text g' :: map group_text gs)
    with (map group_text (g' :: gs)). rewrite (IH Hgs).
  rewrite join_app; [done|by destruct g|].
  apply Forall_cons_1 in Hgs as [Hg' _]. by destruct g'.
Qed.

Lemma chunk_texts_of_groups gs cs :
  Forall2 chunk_of_group gs cs -> map chunk_text cs = map group_text gs.
Proof.
  induction 1 as [|g c gs cs (Ht & _) _ IH]; [done|]. cbn. by rewrite Ht, IH.
Qed.

Lemma groups_nonempty gs cs :
  Forall2 chunk_of_group gs cs -> Forall (fun g => g <> []) gs.
Proof.
  intros HF. eapply Forall2_Forall_l; [done|].
  apply Forall_true. intros ? ?. apply chunk_of_group_nonempty.
Qed.

(** A run of several segments that is admissible is at most one
    character above the threshold: the guard does not count the space
    the fold inserts. *)
Lemma admissible_bound T g :
  admissible T g -> (exists s, g = [s]) \/ g = [] \/ len (group_text g) <= T + 1.
Proof.
  intros Ha. destruct g as [|s g _] using rev_ind; [by right; left|].
  destruct g as [|x g]; [left; by exists s|]. right; right.
  rewrite group_text_snoc by done. rewrite !len_app.
  specialize (Ha (x :: g) s [] eq_refl). change (len " ") with 1.
  assert (x :: g <> []) as Hne by done. specialize (Ha Hne). lia.
Qed.

Lemma asm_loop_bounded T all segs : forall st st',
  (forall s, s ∈ segs -> s ∈ all) ->
  Forall (fun c => bounded_text T all (chunk_text c)) (chunks st) ->
  (current_text st = "" \/ bounded_text T all (current_text st)) ->
  asm_loop T st segs = Ok st' ->
  Forall (fun c => bounded_text T all (chunk_text c)) (chunks st')
  /\ (current_text st' = "" \/ bounded_text T all (current_text st')).
Proof.
  induction segs as [|s segs IH]; intros st st' Hall Hch Hcur Hl.
  - by injection Hl as <-.
  - cbn [asm_loop] in Hl.
    destruct (asm_step T st s) as [st1|e] eqn:Hs; [|done].
    cbn [mbind result_bind] in Hl.
    apply (IH st1 st'); [intros x Hx; apply Hall; by right| | |done];
      unfold asm_step, fold_segment in Hs;
      destruct (seg_end s) as [e|e]; try done;
      cbn [mbind result_bind] in Hs; injection Hs as <-;
      cbn [chunks current_text]; unfold flush;
      destruct (must_flush T st s) eqn:Hfl; cbn [chunks current_text truthy].
    + apply Forall_app. split; [done|]. constructor; [|done].
      cbn [closed_chunk chunk_text]. destruct Hcur as [E|Hb]; [|done].
      unfold must_flush in Hfl. by rewrite E in Hfl.
    + done.
    + right. left. exists s. split; [apply Hall; by left|done].
    + destruct (truthy (current_text st)) eqn:Htr.
      * right. right. unfold must_flush in Hfl. rewrite Htr in Hfl.
        cbn [andb] in Hfl. rewrite Z.gtb_ltb in Hfl. apply Z.ltb_ge in Hfl.
        rewrite !len_app. change (len " ") with 1. lia.
      * apply truthy_false in Htr. rewrite Htr.
        right. left. exists s. split; [apply Hall; by left|done].
Qed.

Lemma create_chunks_bounded segs T cs :
  create_chunks_from_segments segs T = Ok cs ->
  Forall (fun c => bounded_text T segs (chunk_text c)) cs.
Proof.
  unfold create_chunks_from_segments.
  destruct (asm_loop T asm_init segs) as [st|e] eqn:Hl; [|done].
  cbn [mbind result_bind]. intros [= <-].
  destruct (asm_loop_bounded T segs segs asm_init st) as [Hch Hcur];
    [done|done|by left|done|].
  unfold asm_final. destruct (truthy (current_text st)) eqn:Htr; [|done].
  apply Forall_app. split; [done|]. constructor; [|done].
  destruct Hcur as [E|Hb]; [by rewrite E in Htr|done].
Qed.

(** ** Assembler: the statements *)

(** C1 (amended).  For every threshold and every segment sequence whose
    texts are all non-empty and whose time-range lines all hold the
    separator (segments as the parser emits them; without the separator
    the assembler raises, see [create_chunks_raises]), the assembler
    returns chunks that are the texts of a partition of the input into
    non-empty consecutive runs, and the chunk texts joined by a space
    equal the segment texts joined by a space: nothing is lost,
    duplicated or reordered. *)
Theorem chunks_reconstruct_text segs T :
  Forall (fun s => seg_ok s = true) segs ->
  exists cs gs,
    create_chunks_from_segments segs T = Ok cs
    /\ concat gs = segs
    /\ Forall (fun g => g <> []) gs
    /\ map chunk_text cs = map group_text gs
    /\ join " " (map chunk_text cs) = join " " (map text segs).
Proof.
  intros Hok.
  destruct (create_chunks_spec segs T Hok) as (cs & gs & Hc & Hp & HF & _).
  exists cs, gs. pose proof (groups_nonempty _ _ HF) as Hne.
  pose proof (chunk_texts_of_groups _ _ HF) as Ht.
  repeat split; try done.
  by rewrite Ht, join_groups, Hp.
Qed.

Lemma chunks_reconstruct_text_witness :
  exists cs gs,
    create_chunks_from_segments
      [mkSegment "0 --> 1" "a"; mkSegment "1 --> 2" "bc";
       mkSegment "2 --> 3" "d"] 3 = Ok cs
    /\ concat gs
       = [mkSegment "0 --> 1" "a"; mkSegment "1 --> 2" "bc";
          mkSegment "2 --> 3" "d"]
    /\ Forall (fun g => g <> []) gs
    /\ map chunk_text cs = map group_text gs
    /\ join " " (map chunk_text cs)
       = join " " (map text [mkSegment "0 --> 1" "a"; mkSegment "1 --> 2" "bc";
                             mkSegment "2 --> 3" "d"]).
Proof.
  apply (chunks_reconstruct_text
           [mkSegment "0 --> 1" "a"; mkSegment "1 --> 2" "bc";
            mkSegment "2 --> 3" "d"] 3).
  repeat constructor.
Defined.

(** C1 as stated fails on a segment with an empty text: folded into an
    empty accumulator it leaves the accumulator empty, so its text (and
    the space that joins it) is missing from the chunks, and a sequence
    of such segments gives no chunk at all. *)
Lemma chunks_drop_empty_text :
  (exists cs,
     create_chunks_from_segments
       [mkSegment "0 --> 1" ""; mkSegment "1 --> 2" "a"] 1000 = Ok cs
     /\ join " " (map chunk_text cs)
        <> join " " (map text [mkSegment "0 --> 1" ""; mkSegment "1 --> 2" "a"]))
  /\ create_chunks_from_segments [mkSegment "0 --> 1" ""] 1000 = Ok [].
Proof.
  split; [|reflexivity].
  eexists. split; [reflexivity|]. discriminate.
Qed.

(** C2 (amended).  The current chunk is closed exactly when the
    accumulator is non-empty and [len(current_text) + len(text)] is
    strictly above the threshold; a sum equal to the threshold closes
    nothing.  The guard leaves out the space that joins the texts, so a
    chunk is the text of a single segment or at most [T + 1] characters
    long (not [T]).  On segments as the parser emits them the chunks are
    those of the greedy partition: within a run every later segment was
    admitted by the guard, and a run ends only where the next segment
    trips it. *)
Theorem flush_rule_greedy segs T :
  (forall st s,
     must_flush T st s = true
     <-> current_text st <> "" /\ len (current_text st) + len (text s) > T)
  /\ (forall st s,
        len (current_text st) + len (text s) = T -> flush T st s = st)
  /\ (forall cs,
        create_chunks_from_segments segs T = Ok cs ->
        Forall (fun c => (exists s, s ∈ segs /\ chunk_text c = text s)
                         \/ len (chunk_text c) <= T + 1) cs)
  /\ (Forall (fun s => seg_ok s = true) segs ->
      exists cs gs,
        create_chunks_from_segments segs T = Ok cs
        /\ concat gs = segs
        /\ map chunk_text cs = map group_text gs
        /\ greedy T gs
        /\ Forall (fun g => (exists s, g = [s])
                            \/ len (group_text g) <= T + 1) gs).
Proof.
  split; [|split; [|split]].
  - intros st s. unfold must_flush.
    rewrite andb_true_iff, truthy_true, Z.gtb_ltb, Z.ltb_lt.
    split; intros [? ?]; (split; [done|lia]).
  - intros st s Heq. unfold flush, must_flush.
    replace (_ >? T) with false; [by rewrite andb_false_r|].
    symmetry. rewrite Z.gtb_ltb. apply Z.ltb_ge. lia.
  - apply create_chunks_bounded.
  - intros Hok.
    destruct (create_chunks_spec segs T Hok) as (cs & gs & Hc & Hp & HF & Hg).
    exists cs, gs. split; [done|]. split; [done|].
    split; [by apply chunk_texts_of_groups|]. split; [done|].
    pose proof (groups_nonempty _ _ HF) as Hne. clear -Hg Hne.
    induction gs as [|g gs IH]; [done|].
    apply Forall_cons_1 in Hne as [Hn Hne]. destruct Hg as (Ha & _ & Hg).
    constructor; [|by apply IH].
    destruct (admissible_bound T g Ha) as [H|[H|H]]; [by left|done|by right].
Qed.

Lemma flush_rule_greedy_witness :
  exists cs gs,
    create_chunks_from_segments
      [mkSegment "0 --> 1" "a"; mkSegment "1 --> 2" "bc";
       mkSegment "2 --> 3" "d"] 3 = Ok cs
    /\ concat gs
       = [mkSegment "0 --> 1" "a"; mkSegment "1 --> 2" "bc";
          mkSegment "2 --> 3" "d"]
    /\ map chunk_text cs = map group_text gs
    /\ greedy 3 gs
    /\ Forall (fun g => (exists s, g = [s]) \/ len (group_text g) <= 3 + 1) gs.
Proof.
  apply (flush_rule_greedy
           [mkSegment "0 --> 1" "a"; mkSegment "1 --> 2" "bc";
            mkSegment "2 --> 3" "d"] 3).
  repeat constructor.
Defined.

(** C2 as stated fails: with threshold 3 the texts [a] and [bc] pass the
    guard (1 + 2 is not above 3) and fold into one chunk of two segments
    whose accumulator, with the joining space, is 4 characters long. *)
Lemma two_segment_chunk_exceeds_threshold :
  create_chunks_from_segments
    [mkSegment "0 --> 1" "a"; mkSegment "1 --> 2" "bc"] 3
  = Ok [mkChunk "a bc" (Some "0") (Some "2")]
  /\ group_text [mkSegment "0 --> 1" "a"; mkSegment "1 --> 2" "bc"] = "a bc"
  /\ len "a bc" > 3.
Proof. repeat split. Qed.

(** A run whose first segment has a non-empty start begins there. *)
Lemma group_start_head g s :
  head g = Some s -> truthy (seg_start s) = true -> group_start g = seg_start s.
Proof. destruct g; intros [= ->] H. cbn. by rewrite H. Qed.

(** On segments as the parser emits them whose starts are all non-empty,
    every chunk starts at the start of the first segment of its run and
    ends at the end of the last one. *)
Lemma chunk_time_range segs T :
  Forall (fun s => seg_ok s = true) segs ->
  Forall (fun s => truthy (seg_start s) = true) segs ->
  exists cs gs,
    create_chunks_from_segments segs T = Ok cs
    /\ concat gs = segs
    /\ Forall2 (fun g c =>
         exists s1 sn e,
           head g = Some s1 /\ last g = Some sn
           /\ timestamp_start c = Some (seg_start s1)
           /\ seg_end sn = Ok e /\ timestamp_end c = Some e) gs cs.
Proof.
  intros Hok Hst.
  destruct (create_chunks_spec segs T Hok) as (cs & gs & Hc & Hp & HF & _).
  exists cs, gs. split; [done|]. split; [done|].
  assert (Hin : Forall (Forall (fun s => truthy (seg_start s) = true)) gs).
  { rewrite <- Hp in Hst. clear -Hst. induction gs as [|g gs IH]; [done|].
    cbn [concat] in Hst. apply Forall_app in Hst as [? ?].
    constructor; [done|by apply IH]. }
  clear -HF Hin. induction HF as [|g c gs cs Hgc _ IH]; [done|].
  apply Forall_cons_1 in Hin as [Hg Hin]. constructor; [|by apply IH].
  destruct Hgc as (_ & Hs & sn & e & Hl & He & Hte).
  destruct g as [|s1 g]; [done|]. exists s1, sn, e.
  apply Forall_cons_1 in Hg as [H1 _].
  repeat split; try done. by rewrite Hs, (group_start_head _ s1).
Qed.

(** C3 at a failing input.  The transcript below has a first cue whose
    time-range line begins with the separator: its start is the empty
    string, which the test [if not start_timestamp] takes for an unset
    start, so the chunk's start is the start of the second segment. *)
Lemma chunk_start_skips_empty_start :
  parse_webvtt_content
    ("--> 00:00:05.000" +:+ NL +:+ "intro" +:+ NL +:+ NL
     +:+ "00:00:05.000 --> 00:00:09.000" +:+ NL +:+ "welcome")
  = [mkSegment "--> 00:00:05.000" "intro";
     mkSegment "00:00:05.000 --> 00:00:09.000" "welcome"]
  /\ seg_start (mkSegment "--> 00:00:05.000" "intro") = ""
  /\ create_chunks_from_segments
       [mkSegment "--> 00:00:05.000" "intro";
        mkSegment "00:00:05.000 --> 00:00:09.000" "welcome"] CHUNK_SIZE
     = Ok [mkChunk "intro welcome" (Some "00:00:05.000") (Some "00:00:09.000")].
Proof. repeat split. Qed.

(** ** Parser *)

Lemma lstrip_all_space ws : all_space ws = true -> lstrip ws = "".
Proof.
  induction ws as [|c ws IH]; [done|]. cbn [all_space lstrip].
  intros [Hc Hws]%andb_true_iff. rewrite Hc. by apply IH.
Qed.

Lemma lstrip_not_all_space l :
  all_space l = false ->
  exists c s, lstrip l = String c s /\ is_space c = false.
Proof.
  induction l as [|c l IH]; [done|]. cbn [all_space lstrip].
  destruct (is_space c) eqn:Hc; [apply IH|]. intros _. by exists c, l.
Qed.

(** A line strips to the empty string exactly when it is blank. *)
Lemma strip_blank l : truthy (strip l) = negb (is_blank l).
Proof.
  unfold is_blank, strip. destruct (all_space l) eqn:Hl.
  - by rewrite (lstrip_all_space l Hl).
  - destruct (lstrip_not_all_space l Hl) as (c & s & -> & Hc).
    cbn [rstrip]. by rewrite Hc.
Qed.

(** The inner loop goes on exactly on the text lines. *)
Lemma ends_cue_text_line l : ends_cue (strip l) = negb (is_text_line l).
Proof.
  unfold ends_cue, is_text_line, is_time_range. rewrite strip_blank.
  by destruct (is_blank l), (contains "-->" (strip l)).
Qed.

Lemma drop_lookup_total (lines : list string) i :
  (i < length lines)%nat -> drop i lines = (lines !!! i) :: drop (S i) lines.
Proof.
  intros Hi. apply drop_S. by apply list_lookup_lookup_total_lt.
Qed.

Lemma collect_text_spec lines i text_lines :
  exists texts rest,
    drop i lines = texts ++ rest
    /\ Forall (fun t => is_text_line t = true) texts
    /\ (forall l' rest', rest = l' :: rest' -> is_text_line l' = false)
    /\ collect_text lines i text_lines
       = ((i + length texts)%nat, text_lines ++ map strip texts).
Proof.
  funelim (collect_text lines i text_lines).
  - exists [], []. rewrite drop_ge by lia. cbn. rewrite Nat.add_0_r, app_nil_r.
    by repeat split.
  - match goal with Hlt : (_ < _)%nat |- _ => rename Hlt into Hi end.
    exists [], (drop i lines). cbn. rewrite Nat.add_0_r, app_nil_r.
    repeat split; try done.
    intros l' rest' Hd. rewrite (drop_lookup_total _ _ Hi) in Hd.
    injection Hd as <- _. rewrite ends_cue_text_line in Heq.
    by destruct (is_text_line (lines !!! i)).
  - match goal with Hlt : (_ < _)%nat |- _ => rename Hlt into Hi end.
    destruct H as (texts & rest & Hd & Ht & Hr & Hc).
    exists ((lines !!! i) :: texts), rest.
    split; [rewrite (drop_lookup_total _ _ Hi); rewrite Nat.add_1_r in Hd;
            by rewrite Hd|].
    split; [constructor;
            [rewrite ends_cue_text_line in Heq;
             by destruct (is_text_line (lines !!! i))|done]|].
    split; [done|].
    rewrite Hc. cbn [length map]. f_equal; [lia|]. by rewrite <- app_assoc.
Qed.

Lemma append_segment_cue segments l texts :
  append_segment segments (strip l) (map strip texts)
  = segments ++ omap segment_of_cue [mkCue l texts].
Proof. destruct texts; cbn; [by rewrite app_nil_r|done]. Qed.

Lemma parse_loop_spec lines i segments :
  exists cs,
    Cues (drop i lines) cs
    /\ parse_loop lines i segments = segments ++ omap segment_of_cue cs.
Proof.
  funelim (parse_loop lines i segments).
  - exists []. rewrite drop_ge by lia. split; [constructor|by rewrite app_nil_r].
  - match goal with Hlt : (_ < _)%nat |- _ => rename Hlt into Hi end.
    destruct H as (cs & HC & Hp).
    destruct (collect_text_spec lines (i + 1) [])
      as (texts & rest & Hd & Ht & Hr & Hc).
    rewrite Hc in *. cbn [fst snd app] in *.
    exists (mkCue (lines !!! i) texts :: cs). split.
    + rewrite (drop_lookup_total _ _ Hi), <- Nat.add_1_r, Hd.
      apply Cues_cue; try done.
      replace rest with (drop (i + 1 + length texts) lines); [done|].
      by rewrite <- drop_drop, Hd, drop_app_length.
    + rewrite Hp, append_segment_cue, <- app_assoc.
      by rewrite <- omap_app.
  - match goal with Hlt : (_ < _)%nat |- _ => rename Hlt into Hi end.
    destruct H as (cs & HC & Hp). exists cs. split; [|done].
    rewrite (drop_lookup_total _ _ Hi), <- Nat.add_1_r. by apply Cues_outside.
Qed.

Lemma text_run_unique (texts texts' rest rest' : list string) :
  Forall (fun t => is_text_line t = true) texts ->
  Forall (fun t => is_text_line t = true) texts' ->
  (forall l r, rest = l :: r -> is_text_line l = false) ->
  (forall l r, rest' = l :: r -> is_text_line l = false) ->
  texts ++ rest = texts' ++ rest' -> texts = texts' /\ rest = rest'.
Proof.
  intros Ht. revert texts'.
  induction Ht as [|t texts Hx Ht IH]; intros texts' Ht' Hr Hr' Heq.
  - destruct Ht' as [|t' texts' Hx' _]; [done|]. cbn in Heq.
    specialize (Hr _ _ Heq). congruence.
  - destruct Ht' as [|t' texts' Hx' Ht']; cbn in Heq.
    + symmetry in Heq. specialize (Hr' _ _ Heq). congruence.
    + injection Heq as -> Heq. destruct (IH _ Ht' Hr Hr' Heq) as [-> ->]. done.
Qed.

Lemma Cues_unique lines cs : Cues lines cs -> forall cs', Cues lines cs' -> cs = cs'.
Proof.
  induction 1 as [|l ls cs Hl HC IH|l texts rest cs Hl Ht Hr HC IH];
    intros cs' HC'.
  - by inversion HC'.
  - inversion HC'; subst; [by apply IH|congruence].
  - inversion HC'; subst; [congruence|].
    match goal with
    | E : ?t' ++ ?r' = texts ++ rest, Ht' : Forall _ ?t',
      Hr' : forall _ _, ?r' = _ -> _ |- _ =>
        destruct (text_run_unique _ _ _ _ Ht' Ht Hr' Hr E) as [-> ->]
    end.
    f_equal. by apply IH.
Qed.

(** The parser's segments have a non-empty text and a time-range line
    that holds the separator. *)
Lemma Cues_segments_ok lines cs :
  Cues lines cs -> Forall (fun s => seg_ok s = true) (omap segment_of_cue cs).
Proof.
  induction 1 as [| |l texts rest cs Hl Ht Hr HC IH]; [done|done|].
  destruct texts as [|t texts]; [done|].
  change (omap segment_of_cue (mkCue l (t :: texts) :: cs))
    with (mkSegment (strip l) (join " " (map strip (t :: texts)))
            :: omap segment_of_cue cs).
  constructor; [|done].
  unfold seg_ok. cbn [text timestamp]. apply andb_true_iff. split; [|done].
  apply (join_truthy _ _ (strip t)); [done|].
  apply Forall_cons_1 in Ht as [Ht _]. rewrite strip_blank.
  unfold is_text_line in Ht. by destruct (is_blank t).
Qed.

Lemma parse_output_ok content :
  Forall (fun s => seg_ok s = true) (parse_webvtt_content content).
Proof.
  unfold parse_webvtt_content.
  destruct (parse_loop_spec (split NL content) 0 []) as (cs & HC & ->).
  by apply (Cues_segments_ok _ _ HC).
Qed.

(** C4.  For every input text the lines have exactly one decomposition
    into cues, and the parser's result is, in cue order, the segment of
    each cue that has a text line: its time-range line stripped and its
    text lines stripped and joined by one space; a cue without text line
    and a line outside any cue give nothing. *)
Theorem parser_segments_of_cues content :
  exists cs,
    Cues (split NL content) cs
    /\ (forall cs', Cues (split NL content) cs' -> cs' = cs)
    /\ parse_webvtt_content content = omap segment_of_cue cs.
Proof.
  unfold parse_webvtt_content.
  destruct (parse_loop_spec (split NL content) 0 []) as (cs & HC & ->).
  exists cs. split; [done|]. split; [|done].
  intros cs' HC'. symmetry. by apply (Cues_unique _ _ HC).
Qed.

(** The assembler never raises on what the parser emits. *)
Corollary chunks_of_transcript content T :
  exists cs gs,
    create_chunks_from_segments (parse_webvtt_content content) T = Ok cs
    /\ concat gs = parse_webvtt_content content
    /\ Forall2 chunk_of_group gs cs
    /\ greedy T gs.
Proof. apply create_chunks_spec, parse_output_ok. Qed.

(** ** Classifier *)

Lemma startswith_spec p s :
  startswith p s = true <-> exists rest, s = p +:+ rest.
Proof.
  unfold startswith. revert s. induction p as [|a p IH]; intros s.
  - destruct s; cbn; split; eauto.
  - destruct s as [|b s]; cbn.
    + split; [done|]. by intros [rest ?].
    + destruct (ascii_dec a b) as [->|Hne].
      * rewrite IH. split; intros [rest Hr]; exists rest.
        -- by rewrite app_cons, <- Hr.
        -- rewrite app_cons in Hr. by injection Hr.
      * split; [done|]. intros [rest Hr]. rewrite app_cons in Hr.
        injection Hr as ? _. congruence.
Qed.

(** A pattern matches exactly the strings that begin with one of its
    alternatives. *)
Lemma re_match_spec p s :
  re_match p s = true <-> exists alt rest, alt ∈ p /\ s = alt +:+ rest.
Proof.
  unfold re_match. rewrite existsb_exists. split.
  - intros (alt & Hin & Hs). apply startswith_spec in Hs as [rest ->].
    exists alt, rest. split; [by apply list_elem_of_In|done].
  - intros (alt & rest & Hin & ->). exists alt.
    split; [by apply list_elem_of_In|]. apply startswith_spec. by exists rest.
Qed.

Lemma classify_first_match question :
  classify question = first_match (normalise question).
Proof.
  unfold classify, first_match, is_casual, select_category, priority_table.
  generalize (normalise question) as q. intros q.
  unfold casual_patterns.
  cbn -[re_match].
  repeat match goal with
         | |- context [re_match ?p q] => destruct (re_match p q); cbn -[re_match]
         end; reflexivity.
Qed.

Lemma lower_app s t : lower (s +:+ t) = lower s +:+ lower t.
Proof.
  induction s as [|c s IH]; [done|].
  rewrite app_cons. cbn [lower]. by rewrite IH, app_cons.
Qed.

Lemma is_space_lower_char c : is_space (lower_char c) = is_space c.
Proof. by destruct c as [[] [] [] [] [] [] [] []]. Qed.

Lemma lower_char_idemp c : lower_char (lower_char c) = lower_char c.
Proof. by destruct c as [[] [] [] [] [] [] [] []]. Qed.

Lemma lower_idemp s : lower (lower s) = lower s.
Proof.
  induction s as [|c s IH]; [done|]. cbn [lower].
  by rewrite lower_char_idemp, IH.
Qed.

Lemma all_space_lower s : all_space (lower s) = all_space s.
Proof.
  induction s as [|c s IH]; [done|]. cbn [lower all_space].
  by rewrite is_space_lower_char, IH.
Qed.

Lemma rstrip_all_space ws : all_space ws = true -> rstrip ws = "".
Proof.
  induction ws as [|c ws IH]; [done|]. cbn [all_space rstrip].
  intros [Hc Hws]%andb_true_iff. by rewrite Hc, (IH Hws).
Qed.

Lemma lstrip_app_space ws s :
  all_space ws = true -> lstrip (ws +:+ s) = lstrip s.
Proof.
  induction ws as [|c ws IH]; [done|]. cbn [all_space].
  intros [Hc Hws]%andb_true_iff. rewrite app_cons. cbn [lstrip].
  rewrite Hc. by apply IH.
Qed.

Lemma rstrip_app_space s ws :
  all_space ws = true -> rstrip (s +:+ ws) = rstrip s.
Proof.
  intros Hws. induction s as [|c s IH].
  - rewrite app_empty_l. by apply rstrip_all_space.
  - rewrite app_cons. cbn [rstrip]. by rewrite IH.
Qed.

Lemma strip_app_space s ws :
  all_space ws = true -> strip (s +:+ ws) = strip s.
Proof.
  intros Hws. unfold strip. induction s as [|c s IH].
  - rewrite app_empty_l. by rewrite (lstrip_all_space _ Hws).
  - rewrite app_cons. cbn [lstrip]. destruct (is_space c); [done|].
    rewrite <- app_cons. by apply rstrip_app_space.
Qed.

(** Whitespace around a question and the case of its letters do not
    reach the patterns. *)
Lemma normalise_pad ws1 q ws2 :
  all_space ws1 = true -> all_space ws2 = true ->
  normalise (ws1 +:+ q +:+ ws2) = normalise q.
Proof.
  intros H1 H2. unfold normalise. rewrite !lower_app.
  rewrite <- all_space_lower in H1, H2.
  unfold strip at 1. rewrite (lstrip_app_space _ _ H1).
  by apply strip_app_space.
Qed.

(** C5.  The classifier lower-cases and strips the question and answers
    with the category of the first of the six patterns, in their fixed
    order, that matches; a pattern matches exactly the strings that
    begin with one of its alternatives; the request goes to retrieval
    exactly when no pattern matches.  The answer depends neither on the
    case of the letters nor on whitespace around the question. *)
Theorem classifier_first_match question :
  classify question = first_match (strip (lower question))
  /\ (forall p s,
        re_match p s = true <-> exists alt rest, alt ∈ p /\ s = alt +:+ rest)
  /\ (classify question = None
      <-> forall p, p ∈ casual_patterns ->
                    re_match p (strip (lower question)) = false)
  /\ (forall question', lower question' = lower question ->
                        classify question' = classify question)
  /\ (forall ws1 ws2, all_space ws1 = true -> all_space ws2 = true ->
        classify (ws1 +:+ question +:+ ws2) = classify question)
  /\ (forall P w,
        classify question = None
        <-> head (snd (query_lecture P w question))
            = Some (CollectionQuery question 5))
  /\ classify "hello" = Some greeting
  /\ classify "thanks!" = Some thanks
  /\ classify "who are you?" = Some who_are_you
  /\ classify "  Who Are YOU?  " = Some who_are_you
  /\ classify "What is fine-tuning?" = None.
Proof.
  split; [apply classify_first_match|]. split; [apply re_match_spec|].
  split; [|split; [|split; [|split; [|by repeat split]]]].
  - unfold classify, is_casual, normalise.
    destruct (existsb _ casual_patterns) eqn:E.
    + split; [done|]. intros Hall. apply existsb_exists in E as (p & Hin & Hp).
      apply list_elem_of_In in Hin. by rewrite (Hall p Hin) in Hp.
    + split; [|done]. intros _ p Hin.
      destruct (re_match p _) eqn:Hp; [|done].
      rewrite <- E. symmetry. apply existsb_exists. exists p.
      split; [by apply list_elem_of_In|done].
  - intros question' Hl. unfold classify, normalise. by rewrite Hl.
  - intros ws1 ws2 H1 H2. unfold classify. by rewrite normalise_pad.
  - intros P w. unfold classify, query_lecture, retrieve.
    destruct (is_casual (normalise question)); [done|].
    by destruct (_ ≫= _) as [[? ?]|?].
Qed.

(** ** Source excerpts *)

Lemma slice_to_prefix n s :
  exists rest, s = slice_to n s +:+ rest
               /\ String.length (slice_to n s) = Nat.min n (String.length s).
Proof.
  unfold slice_to. revert s. induction n as [|n IH]; intros s.
  - exists s. by destruct s.
  - destruct s as [|c s]; [by exists ""|].
    destruct (IH s) as (rest & Hs & Hl). exists rest. cbn [substring].
    rewrite app_cons, <- Hs. cbn [String.length]. by rewrite Hl.
Qed.

Lemma index_lookup {A} (l : list A) i x : l !! i = Some x -> index l i = Ok x.
Proof. unfold index. by intros ->. Qed.

Lemma sources_loop_spec results n : forall a acc,
  (a + n <= length (metadatas results))%nat ->
  (a + n <= length (documents results))%nat ->
  sources_loop results (seq a n) acc
  = Ok (acc ++ zip_with make_source (take n (drop a (metadatas results)))
                                    (take n (drop a (documents results)))).
Proof.
  induction n as [|n IH]; intros a acc Hm Hd.
  - cbn. by rewrite app_nil_r.
  - cbn [seq sources_loop].
    destruct (lookup_lt_is_Some_2 (metadatas results) a) as [m Hma]; [lia|].
    destruct (lookup_lt_is_Some_2 (documents results) a) as [d Hda]; [lia|].
    rewrite (index_lookup _ _ _ Hma), (index_lookup _ _ _ Hda).
    cbn [mbind result_bind]. rewrite IH by lia.
    rewrite (drop_S _ _ _ Hma), (drop_S _ _ _ Hda). cbn [take zip_with].
    by rewrite <- app_assoc.
Qed.

(** C8.  When the store's answer has a document and a metadata entry for
    each identifier, the sources list has one entry per identifier, in
    the order of the answer; the entry of a chunk carries the course,
    lecture and time range found in its metadata, and as excerpt the
    whole text when it has at most 200 characters, otherwise its first
    200 characters followed by three dots. *)
Theorem sources_excerpt results :
  (length (ids results) <= length (metadatas results))%nat ->
  (length (ids results) <= length (documents results))%nat ->
  exists sources,
    build_sources results = Ok sources
    /\ length sources = length (ids results)
    /\ (forall i metadata document,
          (i < length (ids results))%nat ->
          metadatas results !! i = Some metadata ->
          documents results !! i = Some document ->
          exists source,
            sources !! i = Some source
            /\ src_text source = excerpt document
            /\ (len document <= 200 -> src_text source = document)
            /\ (len document > 200 ->
                exists first rest,
                  document = first +:+ rest /\ len first = 200
                  /\ src_text source = first +:+ "...")
            /\ (forall v, metadata !! "course" = Some v -> src_course source = v)
            /\ (forall v, metadata !! "lecture" = Some v -> src_lecture source = v)
            /\ (forall v, metadata !! "timestamp_start" = Some v ->
                          src_timestamp_start source = v)
            /\ (forall v, metadata !! "timestamp_end" = Some v ->
                          src_timestamp_end source = v)).
Proof.
  intros Hm Hd. unfold build_sources.
  rewrite sources_loop_spec by (cbn; lia). rewrite !drop_0. cbn [app].
  eexists. split; [done|].
  split; [rewrite length_zip_with, !length_take; lia|].
  intros i metadata document Hi Hmi Hdi. exists (make_source metadata document).
  split.
  { rewrite lookup_zip_with, !lookup_take_lt by lia. by rewrite Hmi, Hdi. }
  cbn [make_source src_text src_course src_lecture src_timestamp_start
       src_timestamp_end].
  split; [done|]. unfold excerpt, dict_get. split; [|split].
  - intros Hle. replace (len document >? 200) with false; [done|].
    symmetry. rewrite Z.gtb_ltb. apply Z.ltb_ge. lia.
  - intros Hgt. replace (len document >? 200) with true
      by (symmetry; rewrite Z.gtb_ltb; apply Z.ltb_lt; lia).
    destruct (slice_to_prefix 200 document) as (rest & Hs & Hl).
    exists (slice_to 200 document), rest. split; [done|]. split; [|done].
    unfold len in *. lia.
  - repeat split; intros v ->; done.
Qed.

Lemma sources_excerpt_witness :
  exists sources,
    build_sources
      (mkQueryResult ["short text"] ["id-1"]
         [{[ "course" := MStr "RAG"; "lecture" := MStr "Intro" ]}])
    = Ok sources
    /\ length sources = 1%nat.
Proof.
  destruct (sources_excerpt
              (mkQueryResult ["short text"] ["id-1"]
                 [{[ "course" := MStr "RAG"; "lecture" := MStr "Intro" ]}]))
    as (sources & Hb & Hl & _); [cbn; lia|cbn; lia|].
  exists sources. split; [exact Hb|exact Hl].
Defined.

(** ** Responders *)

Lemma classify_casual question c :
  classify question = Some c ->
  is_casual (normalise question) = true
  /\ select_category (normalise question) = c.
Proof.
  unfold classify. destruct (is_casual (normalise question)); [|done].
  by intros [= <-].
Qed.

Lemma classify_retrieval question :
  classify question = None -> is_casual (normalise question) = false.
Proof. unfold classify. by destruct (is_casual (normalise question)). Qed.

(** C7.  For every question classified as casual the response streams
    the canned text of its category, one content event per character in
    order, then the done event and nothing else: no sources event, and
    neither the store nor the model is called. *)
Theorem casual_stream P w question c :
  classify question = Some c ->
  exists body,
    query_lecture P w question = (StreamingResponse body, [])
    /\ events body
       = map (fun char => Content (String char EmptyString))
             (list_ascii_of_string (casual_responses c)) ++ [Done]
    /\ failure body = None
    /\ forallb (fun e => negb (is_sources e)) (events body) = true.
Proof.
  intros [Hc Hs]%classify_casual. unfold query_lecture. rewrite Hc.
  eexists. split; [done|]. unfold generate_casual. rewrite Hs.
  cbn [events failure]. split; [done|]. split; [done|].
  rewrite forallb_app. apply andb_true_iff. split; [|done].
  by induction (list_ascii_of_string (casual_responses c)).
Qed.

Lemma casual_stream_witness :
  exists body,
    query_lecture "" world_model_down "hi there" = (StreamingResponse body, [])
    /\ events body
       = map (fun char => Content (String char EmptyString))
             (list_ascii_of_string (casual_responses greeting)) ++ [Done]
    /\ failure body = None
    /\ forallb (fun e => negb (is_sources e)) (events body) = true.
Proof.
  apply (casual_stream "" world_model_down "hi there" greeting).
  reflexivity.
Defined.

Lemma count_content kind fragments :
  (forall d, kind (Content d) = false) ->
  count_events kind (map Content fragments) = 0%nat.
Proof.
  intros Hk. unfold count_events.
  induction fragments as [|f fs IH]; [done|]. cbn. by rewrite Hk.
Qed.

(** In a complete stream the done event is last, there is one sources
    event and one done event, and every content event comes before the
    sources event. *)
Lemma complete_stream_order fragments sources :
  last (complete_stream fragments sources) = Some Done
  /\ count_events is_sources (complete_stream fragments sources) = 1%nat
  /\ count_events is_done (complete_stream fragments sources) = 1%nat
  /\ (forall i j srcs d,
        complete_stream fragments sources !! i = Some (Sources srcs) ->
        complete_stream fragments sources !! j = Some (Content d) ->
        (j < i)%nat).
Proof.
  unfold complete_stream. split; [|split; [|split]].
  - change [Content closing_message; Sources sources; Done]
      with ([Content closing_message; Sources sources] ++ [Done]).
    by rewrite app_assoc, last_snoc.
  - unfold count_events. rewrite List.filter_app, length_app.
    fold (count_events is_sources (map Content fragments)).
    by rewrite count_content.
  - unfold count_events. rewrite List.filter_app, length_app.
    fold (count_events is_done (map Content fragments)).
    by rewrite count_content.
  - intros i j srcs d Hi Hj.
    assert (Hlen : length (map Content fragments) = length fragments)
      by apply length_map.
    destruct (decide (i < length fragments)%nat) as [Hlt|Hge].
    { rewrite lookup_app_l in Hi by lia.
      apply list_lookup_fmap_Some in Hi as (f & ? & ?). done. }
    rewrite lookup_app_r in Hi by lia. rewrite Hlen in Hi.
    destruct (decide (j < length fragments)%nat) as [Hlt|Hge']; [lia|].
    rewrite lookup_app_r in Hj by lia. rewrite Hlen in Hj.
    destruct (i - length fragments)%nat as [|[|[|k]]] eqn:Ei; try done.
    destruct (j - length fragments)%nat as [|[|[|k]]] eqn:Ej; try done.
    lia.
Qed.

(** C6 (amended).  On the retrieval branch, once the store has answered
    and the context block and the sources are built, the response is a
    stream.  When the model call returns and its stream ends without an
    exception, the events are: one content event per non-empty fragment
    in generation order, then one content event with the closing note,
    then one sources event with the sources in retrieval order, then the
    done event; so done is last and no content event follows the sources
    event.  When the model call or its stream raises, the events are
    only the content events of the fragments received before. *)
Theorem retrieval_stream_order P w question results context_str sources :
  classify question = None ->
  collection_query w question 5 = Ok results ->
  build_context results = Ok context_str ->
  build_sources results = Ok sources ->
  exists body fragments,
    query_lecture P w question
    = (StreamingResponse body,
       [CollectionQuery question 5;
        ChatCompletion (prompt_messages P context_str question)])
    /\ Forall (fun fragment => fragment <> "") fragments
    /\ match chat_completions_create w (prompt_messages P context_str question) with
       | Ok stream =>
           fragments = omap delta_content (deltas stream)
           /\ failure body = stream_error stream
       | Raise e => fragments = [] /\ failure body = Some e
       end
    /\ (failure body = None ->
        events body = complete_stream fragments sources
        /\ last (events body) = Some Done
        /\ count_events is_sources (events body) = 1%nat
        /\ count_events is_done (events body) = 1%nat
        /\ forall i j srcs d,
             events body !! i = Some (Sources srcs) ->
             events body !! j = Some (Content d) -> (j < i)%nat)
    /\ (forall e, failure body = Some e -> events body = map Content fragments).
Proof.
  intros Hc%classify_retrieval Hq Hctx Hsrc.
  unfold query_lecture, retrieve. rewrite Hc, Hq. cbn [mbind result_bind].
  rewrite Hctx. cbn [mbind result_bind]. rewrite Hsrc. cbn [mbind result_bind].
  unfold generate.
  destruct (chat_completions_create w (prompt_messages P context_str question))
    as [stream|e].
  - assert (Hne : Forall (fun fragment => fragment <> "")
                         (omap delta_content (deltas stream))).
    { induction (deltas stream) as [|d ds IH]; [done|]. cbn [omap].
      destruct d as [f|]; cbn [delta_content]; [|done].
      destruct f; cbn [truthy]; [done|]. by constructor. }
    destruct (stream_error stream) as [e|]; eexists _, _;
      (split; [done|]); (split; [exact Hne|]); cbn [events failure];
      (split; [done|]); (split; [|by intros ? [= <-]]); [done|].
    intros _. split; [done|]. apply complete_stream_order.
  - exists (mkEmission [] (Some e)), []. by repeat split.
Qed.

Lemma retrieval_stream_order_witness :
  exists body fragments,
    query_lecture "persona" world_up "What is fine-tuning?"
    = (StreamingResponse body,
       [CollectionQuery "What is fine-tuning?" 5;
        ChatCompletion
          (prompt_messages "persona"
             "[ID: id-1] Fine-tuning adapts a pretrained model."
             "What is fine-tuning?")])
    /\ events body
       = complete_stream fragments
           [make_source
              {[ "course" := MStr "GenAI";
                 "lecture" := MStr "Fine-tuning";
                 "timestamp_start" := MStr "00:00:01.000";
                 "timestamp_end" := MStr "00:01:00.000";
                 "chunk_index" := MInt 0 ]}
              "Fine-tuning adapts a pretrained model."]
    /\ fragments = ["Good "; "question"].
Proof.
  destruct (retrieval_stream_order "persona" world_up "What is fine-tuning?"
              one_chunk "[ID: id-1] Fine-tuning adapts a pretrained model."
              [make_source
                 {[ "course" := MStr "GenAI";
                    "lecture" := MStr "Fine-tuning";
                    "timestamp_start" := MStr "00:00:01.000";
                    "timestamp_end" := MStr "00:01:00.000";
                    "chunk_index" := MInt 0 ]}
                 "Fine-tuning adapts a pretrained model."])
    as (body & fragments & Hq & _ & [Hf Hfail] & Hev & _);
    [reflexivity..|].
  exists body, fragments. split; [exact Hq|]. split; [|exact Hf].
  apply Hev. exact Hfail.
Defined.

(** C6 as stated fails when the completion stream raises: the events
    stop after the fragments received, there is no closing note, no
    sources event and no done event. *)
Lemma broken_stream_has_no_done :
  query_lecture "persona" world_stream_breaks "What is fine-tuning?"
  = (StreamingResponse
       (mkEmission [Content "Fine-tuning"]
                   (Some (Exn "APIError" "connection lost"))),
     [CollectionQuery "What is fine-tuning?" 5;
      ChatCompletion
        (prompt_messages "persona"
           "[ID: id-1] Fine-tuning adapts a pretrained model."
           "What is fine-tuning?")])
  /\ Done ∉ [Content "Fine-tuning"].
Proof.
  split; [reflexivity|]. intros Hin. apply list_elem_of_singleton in Hin. done.
Qed.

(** C9 (amended).  On the retrieval branch, an exception raised by the
    store query or while the context block and the sources are built is
    caught by the handler, which aborts with HTTP status 500 and the
    exception's message as detail.  An exception raised by the model
    call or by its stream occurs in the generator, after the handler has
    returned the streaming response: the response stays a stream, which
    ends with that exception after the events already emitted. *)
Theorem query_failure_response P w question :
  classify question = None ->
  (forall e, prepare w question = Raise e ->
             query_lecture P w question
             = (HTTPException 500 (str_exn e), [CollectionQuery question 5]))
  /\ (forall context_str sources,
        prepare w question = Ok (context_str, sources) ->
        exists body,
          fst (query_lecture P w question) = StreamingResponse body
          /\ match chat_completions_create w
                   (prompt_messages P context_str question) with
             | Ok stream => failure body = stream_error stream
             | Raise e => failure body = Some e /\ events body = []
             end).
Proof.
  intros Hc%classify_retrieval. unfold query_lecture, retrieve, prepare.
  rewrite Hc.
  destruct (collection_query w question 5) as [results|e0];
    cbn [mbind result_bind]; [|split; [by intros e [= <-]|done]].
  destruct (build_context results) as [ctx|e0];
    cbn [mbind result_bind]; [|split; [by intros e [= <-]|done]].
  destruct (build_sources results) as [srcs|e0];
    cbn [mbind result_bind]; [|split; [by intros e [= <-]|done]].
  split; [done|]. intros context_str sources [= <- <-].
  unfold generate.
  destruct (chat_completions_create w (prompt_messages P ctx question))
    as [stream|e]; [|by eexists].
  destruct (stream_error stream); by eexists.
Qed.

Lemma query_failure_response_witness :
  (forall e, prepare world_model_down "What is fine-tuning?" = Raise e ->
             query_lecture "persona" world_model_down "What is fine-tuning?"
             = (HTTPException 500 (str_exn e),
                [CollectionQuery "What is fine-tuning?" 5]))
  /\ (forall context_str sources,
        prepare world_model_down "What is fine-tuning?"
        = Ok (context_str, sources) ->
        exists body,
          fst (query_lecture "persona" world_model_down "What is fine-tuning?")
          = StreamingResponse body
          /\ match chat_completions_create world_model_down
                   (prompt_messages "persona" context_str
                      "What is fine-tuning?") with
             | Ok stream => failure body = stream_error stream
             | Raise e => failure body = Some e /\ events body = []
             end).
Proof.
  apply (query_failure_response "persona" world_model_down
           "What is fine-tuning?").
  reflexivity.
Defined.

(** C9 as stated fails for the model: when the model call raises, or the
    stream raises after a fragment, the handler has already returned a
    streaming response, and no HTTP 500 is produced. *)
Lemma model_failure_is_not_http_500 :
  fst (query_lecture "persona" world_model_down "What is fine-tuning?")
  = StreamingResponse
      (mkEmission [] (Some (Exn "AuthenticationError" "invalid api key")))
  /\ fst (query_lecture "persona" world_stream_breaks "What is fine-tuning?")
     = StreamingResponse
         (mkEmission [Content "Fine-tuning"]
                     (Some (Exn "APIError" "connection lost")))
  /\ fst (query_lecture "persona" world_model_down "What is fine-tuning?")
     <> HTTPException 500 "invalid api key"
  /\ fst (query_lecture "persona" world_stream_breaks "What is fine-tuning?")
     <> HTTPException 500 "connection lost".
Proof. repeat split; discriminate. Qed.

(** ** Ingestion *)

(** C10.  When the data directory is missing, the run raises the
    directory error with the collection already deleted and created
    anew: whatever the store held under the collection's name before,
    it holds the empty collection afterwards.  For every run, the result
    does not depend on what the collection held before. *)
Theorem ingest_wipes_before_directory_check env (store : Store) :
  (data_dir env = None ->
   ingest_data env store
   = (Raise (ValueError ("Data directory not found: " +:+ DATA_PATH env)),
      <[COLLECTION_NAME := ∅]> store))
  /\ (forall old : Collection,
        ingest_data env (<[COLLECTION_NAME := old]> store)
        = ingest_data env (delete COLLECTION_NAME store)).
Proof.
  assert (Hwipe : forall st : Store,
            create_collection COLLECTION_NAME
              match delete_collection COLLECTION_NAME st with
              | Ok st' => st'
              | Raise _ => st
              end
            = Ok (<[COLLECTION_NAME := ∅]> st)).
  { intros st. unfold delete_collection, create_collection.
    destruct (st !! COLLECTION_NAME) as [c|] eqn:E.
    - by rewrite lookup_delete_eq, insert_delete_eq.
    - by rewrite E. }
  split.
  - intros Hdir. unfold ingest_data. by rewrite Hwipe, Hdir.
  - intros old. unfold ingest_data. rewrite !Hwipe.
    by rewrite insert_insert_eq, insert_delete_eq.
Qed.

Lemma ingest_wipes_before_directory_check_witness :
  ingest_data (mkIngestEnv "/srv/backend/data" None (fun _ => "") (fun _ => None))
    {[ COLLECTION_NAME := {[ "id-1" := mkEntry "old chunk" ∅ ]} ]}
  = (Raise (ValueError "Data directory not found: /srv/backend/data"),
     <[COLLECTION_NAME := ∅]>
       {[ COLLECTION_NAME := {[ "id-1" := mkEntry "old chunk" ∅ ]} ]}).
Proof.
  apply (ingest_wipes_before_directory_check
           (mkIngestEnv "/srv/backend/data" None (fun _ => "") (fun _ => None))
           {[ COLLECTION_NAME := {[ "id-1" := mkEntry "old chunk" ∅ ]} ]}).
  reflexivity.
Defined.

(** * Further properties *)

(** ** Assembler: errors, shape of the chunks, extreme thresholds *)

Lemma asm_loop_returns T segs : forall st,
  Forall (fun s => contains "-->" (timestamp s) = true) segs ->
  exists st', asm_loop T st segs = Ok st'.
Proof.
  induction segs as [|s segs IH]; intros st Hok; [by eexists|].
  apply Forall_cons_1 in Hok as [Hs Hok]. cbn [asm_loop].
  unfold asm_step, fold_segment. destruct (seg_end_ok s Hs) as [e ->].
  cbn [mbind result_bind]. apply IH, Hok.
Qed.

(** X1.  The assembler raises exactly when the time-range line of some
    segment lacks the separator, whatever the threshold and the texts;
    the exception is then the [IndexError] of the missing second piece,
    and no chunk is returned, not even those closed before. *)
Theorem assembler_raises_iff segs T :
  match create_chunks_from_segments segs T with
  | Ok _ => Forall (fun s => contains "-->" (timestamp s) = true) segs
  | Raise e =>
      e = IndexError
      /\ Exists (fun s => contains "-->" (timestamp s) = false) segs
  end.
Proof.
  destruct (decide (Forall (fun s => contains "-->" (timestamp s) = true) segs))
    as [Hall|Hnot].
  - destruct (asm_loop_returns T segs asm_init Hall) as [st' Hl].
    unfold create_chunks_from_segments. by rewrite Hl.
  - apply not_Forall_Exists in Hnot; [|apply _].
    assert (Hex : Exists (fun s => contains "-->" (timestamp s) = false) segs).
    { eapply Exists_impl; [exact Hnot|]. intros s Hs. cbn in Hs.
      by destruct (contains "-->" (timestamp s)). }
    by rewrite (create_chunks_raises segs T Hex).
Qed.

Lemma asm_loop_well_formed T segs : forall st st',
  Forall chunk_well_formed (chunks st) ->
  (truthy (current_text st) = true ->
   is_Some (start_timestamp st) /\ is_Some (end_timestamp st)) ->
  asm_loop T st segs = Ok st' ->
  Forall chunk_well_formed (chunks st')
  /\ (truthy (current_text st') = true ->
      is_Some (start_timestamp st') /\ is_Some (end_timestamp st')).
Proof.
  induction segs as [|s segs IH]; intros st st' Hch Hcur Hl.
  - by injection Hl as <-.
  - cbn [asm_loop] in Hl.
    destruct (asm_step T st s) as [st1|e] eqn:Hs; [|done].
    cbn [mbind result_bind] in Hl.
    apply (IH st1 st'); [| |done];
      unfold asm_step, fold_segment in Hs;
      destruct (seg_end s) as [e|e]; try done;
      cbn [mbind result_bind] in Hs; injection Hs as <-;
      cbn [chunks current_text start_timestamp end_timestamp].
    + unfold flush. destruct (must_flush T st s) eqn:Hfl; [|done].
      cbn [chunks]. apply Forall_app. split; [done|]. constructor; [|done].
      unfold must_flush in Hfl. apply andb_true_iff in Hfl as [Htr _].
      split; [by apply truthy_true|]. by apply Hcur.
    + intros _. split; [|by eexists].
      destruct (start_timestamp (flush T st s)) as [t|]; cbn [truthy_opt negb];
        [destruct (truthy t)|]; by eexists.
Qed.

Lemma create_chunks_well_formed segs T cs :
  create_chunks_from_segments segs T = Ok cs -> Forall chunk_well_formed cs.
Proof.
  unfold create_chunks_from_segments.
  destruct (asm_loop T asm_init segs) as [st|e] eqn:Hl; [|done].
  cbn [mbind result_bind]. intros [= <-].
  destruct (asm_loop_well_formed T segs asm_init st) as [Hch Hcur];
    [done|done|done|].
  unfold asm_final. destruct (truthy (current_text st)) eqn:Htr; [|done].
  apply Forall_app. split; [done|]. constructor; [|done].
  split; [by apply truthy_true|]. by apply Hcur.
Qed.

(** X2.  Whatever the segments and the threshold, every chunk returned
    has a text that is not empty and both timestamps set (never
    [None]). *)
Theorem chunks_well_formed segs T cs :
  create_chunks_from_segments segs T = Ok cs -> Forall chunk_well_formed cs.
Proof. apply create_chunks_well_formed. Qed.

Lemma chunks_well_formed_witness :
  Forall chunk_well_formed
    [mkChunk "a bc" (Some "0") (Some "2"); mkChunk "d" (Some "2") (Some "3")].
Proof.
  apply (chunks_well_formed
           [mkSegment "0 --> 1" "a"; mkSegment "1 --> 2" "bc";
            mkSegment "2 --> 3" "d"] 3).
  reflexivity.
Defined.

Lemma asm_loop_count T segs : forall st st',
  asm_loop T st segs = Ok st' ->
  (length (chunks st') + open_chunk st'
   <= length (chunks st) + open_chunk st + length segs)%nat.
Proof.
  induction segs as [|s segs IH]; intros st st' Hl.
  - injection Hl as <-. cbn. lia.
  - cbn [asm_loop] in Hl.
    destruct (asm_step T st s) as [st1|e] eqn:Hs; [|done].
    cbn [mbind result_bind] in Hl. specialize (IH st1 st' Hl).
    assert (length (chunks st1) + open_chunk st1
            <= length (chunks st) + open_chunk st + 1)%nat; [|cbn [length]; lia].
    unfold asm_step, fold_segment in Hs.
    destruct (seg_end s) as [e|e]; [|done].
    cbn [mbind result_bind] in Hs. injection Hs as <-.
    unfold open_chunk at 1. cbn [chunks current_text].
    unfold flush. destruct (must_flush T st s) eqn:Hfl; cbn [chunks current_text].
    + unfold must_flush in Hfl. apply andb_true_iff in Hfl as [Htr _].
      unfold open_chunk. rewrite Htr, length_app. cbn [length truthy].
      destruct (truthy ("" +:+ text s)); lia.
    + unfold open_chunk.
      repeat match goal with
             | |- context [if truthy ?x then _ else _] => destruct (truthy x)
             end; lia.
Qed.

(** X3.  The assembler never returns more chunks than it was given
    segments. *)
Theorem chunk_count_bounded segs T cs :
  create_chunks_from_segments segs T = Ok cs ->
  (length cs <= length segs)%nat.
Proof.
  unfold create_chunks_from_segments.
  destruct (asm_loop T asm_init segs) as [st|e] eqn:Hl; [|done].
  cbn [mbind result_bind]. intros [= <-].
  pose proof (asm_loop_count T segs asm_init st Hl) as Hc.
  unfold asm_final, open_chunk in *. cbn [asm_init chunks current_text truthy length] in Hc.
  destruct (truthy (current_text st)); [rewrite length_app; cbn [length]|]; lia.
Qed.

Lemma chunk_count_bounded_witness :
  (length [mkChunk "a bc" (Some "0") (Some "2"); mkChunk "d" (Some "2") (Some "3")]
   <= length [mkSegment "0 --> 1" "a"; mkSegment "1 --> 2" "bc";
              mkSegment "2 --> 3" "d"])%nat.
Proof.
  apply (chunk_count_bounded
           [mkSegment "0 --> 1" "a"; mkSegment "1 --> 2" "bc";
            mkSegment "2 --> 3" "d"] 3).
  reflexivity.
Defined.

Lemma group_text_app_len g s r :
  g <> [] ->
  len (group_text g) + 1 + len (text s) <= len (group_text (g ++ s :: r)).
Proof.
  intros Hne. unfold group_text. rewrite map_app.
  rewrite join_app; [|by destruct g|done]. rewrite !len_app.
  change (len " ") with 1. cbn [map].
  destruct (map text r) as [|y l]; [cbn; lia|].
  rewrite join_cons, len_app. pose proof (len_nonneg (" " +:+ join " " (y :: l))).
  lia.
Qed.

(** The start a run leaves is the first start that is not empty, and
    the empty string when every start is empty. *)
Lemma group_start_first_nonempty g :
  group_start g = default "" (head (List.filter truthy (map seg_start g))).
Proof.
  induction g as [|s g IH]; [done|]. cbn [group_start map List.filter].
  by destruct (truthy (seg_start s)).
Qed.

(** X4.  When the threshold is at least the length of all the texts
    joined by spaces, the assembler puts every segment (segments as the
    parser emits them, at least one) into a single chunk.  Its text is
    the join of all the texts and its end is the end of the last
    segment.  Its start is the first start that is not empty (the empty
    string when every start is empty): the start of the first segment
    when that one is not empty, and the start of a later segment
    otherwise. *)
Theorem large_threshold_single_chunk segs T :
  Forall (fun s => seg_ok s = true) segs -> segs <> [] ->
  len (group_text segs) <= T ->
  exists c sn e,
    create_chunks_from_segments segs T = Ok [c]
    /\ chunk_text c = join " " (map text segs)
    /\ last segs = Some sn /\ seg_end sn = Ok e /\ timestamp_end c = Some e
    /\ timestamp_start c
       = Some (default "" (head (List.filter truthy (map seg_start segs))))
    /\ (forall s1, head segs = Some s1 -> truthy (seg_start s1) = true ->
         timestamp_start c = Some (seg_start s1)).
Proof.
  intros Hok Hne Hlen.
  destruct (create_chunks_spec segs T Hok) as (cs & gs & Hc & Hp & HF & Hg).
  pose proof (groups_nonempty _ _ HF) as Hgne.
  destruct gs as [|g [|g' gs]].
  - cbn in Hp. by subst segs.
  - cbn in Hp. rewrite app_nil_r in Hp. subst g.
    apply Forall2_cons_inv_l in HF as (c & cs' & Hgc & HF' & ->).
    apply Forall2_nil_inv_l in HF' as ->.
    destruct Hgc as (Htext & Hstart & sn & e & Hlast & Hend & Hte).
    exists c, sn, e. split; [done|]. split; [done|].
    split; [done|]. split; [done|]. split; [done|]. split.
    + by rewrite Hstart, group_start_first_nonempty.
    + intros s1 Hh Hs1. by rewrite Hstart, (group_start_head _ _ Hh Hs1).
  - exfalso. destruct Hg as (_ & (s & Hh & Hgt) & _).
    apply Forall_cons_1 in Hgne as [Hg1 _].
    destruct g' as [|s' r]; [done|]. injection Hh as ->.
    cbn [concat app] in Hp.
    pose proof (group_text_app_len g s (r ++ concat gs) Hg1) as Hb.
    rewrite Hp in Hb. lia.
Qed.

Lemma large_threshold_single_chunk_witness :
  exists c sn e,
    create_chunks_from_segments
      [mkSegment "--> 1" "a"; mkSegment "5 --> 6" "bc"] 4 = Ok [c]
    /\ chunk_text c = "a bc"
    /\ last [mkSegment "--> 1" "a"; mkSegment "5 --> 6" "bc"] = Some sn
    /\ seg_end sn = Ok e /\ timestamp_end c = Some e
    /\ timestamp_start c = Some "5"
    /\ (forall s1,
          head [mkSegment "--> 1" "a"; mkSegment "5 --> 6" "bc"] = Some s1 ->
          truthy (seg_start s1) = true ->
          timestamp_start c = Some (seg_start s1)).
Proof.
  apply (large_threshold_single_chunk
           [mkSegment "--> 1" "a"; mkSegment "5 --> 6" "bc"] 4).
  - repeat constructor.
  - discriminate.
  - vm_compute. discriminate.
Defined.

(** X5.  With a threshold of one or less (zero and negative thresholds
    included) nothing is ever merged: on segments as the parser emits
    them there is one chunk per segment, with that segment's text. *)
Theorem small_threshold_one_chunk_per_segment segs T :
  Forall (fun s => seg_ok s = true) segs -> T <= 1 ->
  exists cs,
    create_chunks_from_segments segs T = Ok cs
    /\ map chunk_text cs = map text segs.
Proof.
  intros Hok HT.
  destruct (create_chunks_spec segs T Hok) as (cs & gs & Hc & Hp & HF & Hg).
  exists cs. split; [done|]. rewrite (chunk_texts_of_groups _ _ HF).
  pose proof (groups_nonempty _ _ HF) as Hgne. subst segs.
  clear Hc HF. induction gs as [|g gs IH]; [done|].
  cbn [concat] in Hok. apply Forall_app in Hok as [Hokg Hokgs].
  apply Forall_cons_1 in Hgne as [Hg1 Hgne]. destruct Hg as (Ha & _ & Hg).
  cbn [map concat]. rewrite map_app, (IH Hokgs Hg Hgne). f_equal.
  destruct g as [|x [|s g2]]; [done|done|exfalso].
  specialize (Ha [x] s g2 eq_refl). assert ([x] <> []) as Hx by done.
  specialize (Ha Hx). apply Forall_cons_1 in Hokg as [Hx1 Hokg].
  apply Forall_cons_1 in Hokg as [Hs1 _].
  unfold seg_ok in Hx1, Hs1.
  apply andb_true_iff in Hx1 as [Hx1 _]. apply andb_true_iff in Hs1 as [Hs1 _].
  apply truthy_len in Hx1, Hs1. unfold group_text in Ha. cbn in Ha. lia.
Qed.

Lemma small_threshold_one_chunk_per_segment_witness :
  exists cs,
    create_chunks_from_segments
      [mkSegment "0 --> 1" "a"; mkSegment "1 --> 2" "bc"] 0 = Ok cs
    /\ map chunk_text cs = ["a"; "bc"].
Proof.
  apply (small_threshold_one_chunk_per_segment
           [mkSegment "0 --> 1" "a"; mkSegment "1 --> 2" "bc"] 0).
  - repeat constructor.
  - lia.
Defined.

(** ** Parser: inputs without cues, size and shape of the result *)

Lemma contains_spec sub s :
  contains sub s = true <-> exists a b, s = a +:+ sub +:+ b.
Proof.
  split.
  - induction s as [|c s IH]; cbn [contains]; intros H.
    + rewrite orb_false_r in H. apply startswith_spec in H as [rest ->].
      by exists "", rest.
    + apply orb_true_iff in H as [H|H].
      * apply startswith_spec in H as [rest ->]. by exists "", rest.
      * destruct (IH H) as (a & b & ->). by exists (String c a), b.
  - intros (a & b & ->). induction a as [|c a IH].
    + rewrite app_empty_l.
      assert (startswith sub (sub +:+ b) = true) as H
        by (apply startswith_spec; by exists b).
      destruct (sub +:+ b); cbn [contains]; by rewrite H.
    + rewrite app_cons. cbn [contains]. by rewrite IH, orb_true_r.
Qed.

Lemma lstrip_suffix s : exists ws, s = ws +:+ lstrip s.
Proof.
  induction s as [|c s [ws IH]]; [by exists ""|]. cbn [lstrip].
  destruct (is_space c); [|by exists ""].
  exists (String c ws). by rewrite app_cons, <- IH.
Qed.

Lemma rstrip_prefix s : exists ws, s = rstrip s +:+ ws.
Proof.
  induction s as [|c s [ws IH]]; [by exists ""|]. cbn [rstrip].
  destruct (is_space c && negb (truthy (rstrip s))); [by eexists|].
  exists ws. by rewrite app_cons, <- IH.
Qed.

Lemma strip_infix s : exists ws1 ws2, s = ws1 +:+ strip s +:+ ws2.
Proof.
  destruct (lstrip_suffix s) as [ws1 H1].
  destruct (rstrip_prefix (lstrip s)) as [ws2 H2].
  exists ws1, ws2. unfold strip. by rewrite <- H2.
Qed.

Lemma contains_infix sub s a b :
  contains sub s = true -> contains sub (a +:+ s +:+ b) = true.
Proof.
  intros (a' & b' & ->)%contains_spec. apply contains_spec.
  exists (a +:+ a'), (b' +:+ b). by rewrite !app_assoc'.
Qed.

Lemma contains_strip sub s :
  contains sub (strip s) = true -> contains sub s = true.
Proof.
  intros H. destruct (strip_infix s) as (ws1 & ws2 & Hs).
  rewrite Hs. by apply contains_infix.
Qed.

Lemma split_head_prefix sep s :
  exists b, s = hd "" (split_from sep 0 s) +:+ b.
Proof.
  induction s as [|c s [b IH]]; [by exists ""|]. cbn [split_from].
  destruct (startswith sep (String c s)); [by eexists|].
  destruct (split_from sep 0 s) as [|q ps]; cbn [hd] in *.
  - exists s. by rewrite app_cons.
  - exists b. by rewrite app_cons, <- IH.
Qed.

Lemma split_piece_infix sep s : forall skip p,
  p ∈ split_from sep skip s -> exists a b, s = a +:+ p +:+ b.
Proof.
  induction s as [|c s IH]; intros skip p Hin; cbn [split_from] in Hin.
  - apply list_elem_of_singleton in Hin as ->. by exists "", "".
  - destruct skip as [|k].
    + destruct (startswith sep (String c s)).
      * apply elem_of_cons in Hin as [->|Hin]; [by exists "", (String c s)|].
        destruct (IH _ _ Hin) as (a & b & ->). by exists (String c a), b.
      * destruct (split_head_prefix sep s) as [b Hb].
        destruct (split_from sep 0 s) as [|q ps] eqn:E.
        -- apply list_elem_of_singleton in Hin as ->. by exists "", s.
        -- apply elem_of_cons in Hin as [->|Hin].
           ++ cbn [hd] in Hb. exists "", b. by rewrite app_empty_l, app_cons, <- Hb.
           ++ destruct (IH 0%nat p) as (a & b' & ->); [rewrite E; by right|].
              by exists (String c a), b'.
    + destruct (IH _ _ Hin) as (a & b & ->). by exists (String c a), b.
Qed.

Lemma Cues_no_time_range lines cs :
  Cues lines cs -> Forall (fun l => is_time_range l = false) lines -> cs = [].
Proof.
  induction 1 as [|l ls cs Hl HC IH|l texts rest cs Hl Ht Hr HC IH]; intros Hall.
  - done.
  - apply Forall_cons_1 in Hall as [_ Hall]. by apply IH.
  - apply Forall_cons_1 in Hall as [Hl' _]. congruence.
Qed.

(** X6.  A text in which the separator [-->] occurs nowhere (the empty
    text included) has no cue: the parser returns no segment. *)
Theorem parser_no_separator_no_segments content :
  contains "-->" content = false -> parse_webvtt_content content = [].
Proof.
  intros Hno. unfold parse_webvtt_content.
  destruct (parse_loop_spec (split NL content) 0 []) as (cs & HC & ->).
  rewrite drop_0 in HC. rewrite (Cues_no_time_range _ _ HC); [done|].
  apply Forall_forall. intros l Hl. unfold is_time_range.
  destruct (contains "-->" (strip l)) eqn:E; [|done].
  apply contains_strip in E.
  destruct (split_piece_infix NL content 0 l Hl) as (a & b & Hc).
  rewrite Hc, (contains_infix _ _ a b E) in Hno. done.
Qed.

Lemma parser_no_separator_no_segments_witness :
  parse_webvtt_content ("WEBVTT" +:+ NL +:+ NL +:+ "-> hello >") = [].
Proof.
  apply (parser_no_separator_no_segments
           ("WEBVTT" +:+ NL +:+ NL +:+ "-> hello >")).
  reflexivity.
Defined.

Lemma Cues_segment_count lines cs :
  Cues lines cs ->
  (2 * length (omap segment_of_cue cs) <= length lines)%nat
  /\ (length (omap segment_of_cue cs)
      <= length (List.filter is_time_range lines))%nat.
Proof.
  induction 1 as [|l ls cs Hl HC [IH1 IH2]|l texts rest cs Hl Ht Hr HC [IH1 IH2]].
  - cbn. lia.
  - cbn [length List.filter]. rewrite Hl. lia.
  - cbn [List.filter]. rewrite Hl, List.filter_app. cbn [length].
    rewrite !length_app.
    destruct texts as [|t texts].
    + change (omap segment_of_cue (mkCue l [] :: cs))
        with (omap segment_of_cue cs). cbn [length]. lia.
    + change (omap segment_of_cue (mkCue l (t :: texts) :: cs))
        with (mkSegment (strip l) (join " " (map strip (t :: texts)))
                :: omap segment_of_cue cs).
      cbn [length]. lia.
Qed.

(** X7.  A segment takes a time-range line and at least one text line:
    there are at most half as many segments as input lines, and at most
    as many as lines holding the separator. *)
Theorem parser_segment_count content :
  (2 * length (parse_webvtt_content content)
   <= length (split NL content))%nat
  /\ (length (parse_webvtt_content content)
      <= length (List.filter is_time_range (split NL content)))%nat.
Proof.
  unfold parse_webvtt_content.
  destruct (parse_loop_spec (split NL content) 0 []) as (cs & HC & ->).
  rewrite drop_0 in HC. apply (Cues_segment_count _ _ HC).
Qed.

Lemma lstrip_strip s : lstrip (strip s) = strip s.
Proof.
  unfold strip. destruct (lstrip s) as [|c t] eqn:E; [done|].
  assert (is_space c = false) as Hc.
  { clear -E. induction s as [|a s IH]; [done|]. cbn [lstrip] in E.
    destruct (is_space a) eqn:Ha; [by apply IH|]. by injection E as <- _. }
  cbn [rstrip]. rewrite Hc. cbn [andb lstrip]. by rewrite Hc.
Qed.

Lemma rstrip_idemp s : rstrip (rstrip s) = rstrip s.
Proof.
  induction s as [|c s IH]; [done|]. cbn [rstrip].
  destruct (is_space c && negb (truthy (rstrip s))) eqn:E; [done|].
  cbn [rstrip]. by rewrite IH, E.
Qed.

Lemma strip_idemp s : strip (strip s) = strip s.
Proof.
  unfold strip at 1. rewrite lstrip_strip. unfold strip. apply rstrip_idemp.
Qed.

Lemma truthy_app_r s t : truthy t = true -> truthy (s +:+ t) = true.
Proof. destruct s; [by rewrite app_empty_l|done]. Qed.

Lemma rstrip_app a y :
  truthy (rstrip y) = true -> rstrip (a +:+ y) = a +:+ rstrip y.
Proof.
  intros Hy. induction a as [|c a IH]; [done|].
  rewrite !app_cons. cbn [rstrip]. rewrite IH, (truthy_app_r _ _ Hy).
  by rewrite andb_false_r.
Qed.

Lemma stripped_parts x :
  strip x = x -> truthy x = true ->
  rstrip x = x /\ forall y, lstrip (x +:+ y) = x +:+ y.
Proof.
  intros Hs Hx. split.
  - rewrite <- Hs at 1. unfold strip. rewrite rstrip_idemp. exact Hs.
  - intros y. pose proof (lstrip_strip x) as Hl. rewrite Hs in Hl.
    destruct x as [|c x]; [done|]. cbn [lstrip] in Hl. rewrite app_cons.
    cbn [lstrip]. destruct (is_space c) eqn:Hc; [|done].
    exfalso. destruct (lstrip_suffix x) as [ws Hws].
    assert (String.length (lstrip x) <= String.length x)%nat as Hle.
    { apply (f_equal len) in Hws. rewrite len_app in Hws.
      unfold len in Hws. lia. }
    rewrite Hl in Hle. cbn [String.length] in Hle. lia.
Qed.

Lemma join_stripped ls x :
  head ls = Some x ->
  Forall (fun l => strip l = l /\ truthy l = true) ls ->
  strip (join " " ls) = join " " ls.
Proof.
  revert x. induction ls as [|y ls IH]; intros x Hh Hall; [done|].
  apply Forall_cons_1 in Hall as [[Hy Hty] Hall].
  destruct ls as [|z ls]; [done|].
  rewrite join_cons. specialize (IH z eq_refl Hall).
  assert (truthy (join " " (z :: ls)) = true) as Htr.
  { apply (join_truthy _ _ z); [done|]. by apply Forall_cons_1 in Hall as [[_ ?] _]. }
  destruct (stripped_parts _ IH Htr) as [Hr _].
  destruct (stripped_parts _ Hy Hty) as [_ Hl].
  unfold strip. rewrite Hl, <- app_assoc', rstrip_app by (by rewrite Hr).
  by rewrite Hr.
Qed.

Lemma prefix_empty s : String.prefix "" s = true.
Proof. by destruct s. Qed.

Lemma contains_char_app c0 a b :
  contains (String c0 "") (a +:+ b)
  = contains (String c0 "") a || contains (String c0 "") b.
Proof.
  induction a as [|c a IH].
  - rewrite app_empty_l. cbn [contains startswith String.prefix]. done.
  - rewrite app_cons. cbn [contains]. rewrite IH.
    unfold startswith. cbn [String.prefix].
    destruct (ascii_dec c0 c); [|done]. by rewrite !prefix_empty.
Qed.

Lemma split_char_pieces c0 s :
  Forall (fun p => contains (String c0 "") p = false)
         (split_from (String c0 "") 0 s).
Proof.
  induction s as [|c s IH]; [by repeat constructor|]. cbn [split_from].
  unfold startswith at 1. cbn [String.prefix String.length Nat.sub].
  destruct (ascii_dec c0 c) as [->|Hne].
  - rewrite prefix_empty. constructor; [done|exact IH].
  - destruct (split_from (String c0 "") 0 s) as [|q ps].
    + constructor; [|done]. cbn. by destruct (ascii_dec c0 c).
    + apply Forall_cons_1 in IH as [Hq Hps]. constructor; [|done].
      cbn [contains]. rewrite Hq. unfold startswith. cbn [String.prefix].
      by destruct (ascii_dec c0 c).
Qed.

Lemma strip_tidy l : contains NL l = false -> tidy (strip l).
Proof.
  intros Hl. split; [apply strip_idemp|].
  destruct (contains NL (strip l)) eqn:E; [|done].
  apply contains_strip in E. congruence.
Qed.

Lemma join_no_line_feed ls :
  Forall (fun l => contains NL l = false) ls -> contains NL (join " " ls) = false.
Proof.
  induction ls as [|x ls IH]; intros Hall; [done|].
  apply Forall_cons_1 in Hall as [Hx Hall].
  destruct ls as [|y ls]; [done|].
  rewrite join_cons. unfold NL in *. rewrite !contains_char_app, Hx, (IH Hall).
  done.
Qed.

Lemma Cues_segments_tidy lines cs :
  Cues lines cs -> Forall (fun l => contains NL l = false) lines ->
  Forall (fun s => tidy (timestamp s) /\ tidy (text s))
         (omap segment_of_cue cs).
Proof.
  induction 1 as [|l ls cs Hl HC IH|l texts rest cs Hl Ht Hr HC IH]; intros Hall.
  - done.
  - apply Forall_cons_1 in Hall as [_ Hall]. by apply IH.
  - apply Forall_cons_1 in Hall as [Hnl Hall].
    apply Forall_app in Hall as [Htexts Hrest].
    destruct texts as [|t texts]; [by apply IH|].
    change (omap segment_of_cue (mkCue l (t :: texts) :: cs))
      with (mkSegment (strip l) (join " " (map strip (t :: texts)))
              :: omap segment_of_cue cs).
    constructor; [|by apply IH]. cbn [timestamp text].
    split; [by apply strip_tidy|]. split.
    + apply (join_stripped _ (strip t)); [done|].
      apply Forall_fmap, Forall_forall. intros x Hx. cbn.
      split; [apply strip_idemp|].
      rewrite Forall_forall in Ht. specialize (Ht x Hx).
      rewrite strip_blank. unfold is_text_line in Ht.
      by destruct (is_blank x).
    + apply join_no_line_feed, Forall_fmap, Forall_forall. intros x Hx. cbn.
      rewrite Forall_forall in Htexts. by apply strip_tidy, Htexts.
Qed.

(** X8.  Whatever the input, every segment the parser returns has a text
    that is not empty and a time-range line that holds the separator, and
    both are free of surrounding whitespace and of line feeds. *)
Theorem parser_output_well_formed content :
  Forall (fun s =>
            text s <> "" /\ contains "-->" (timestamp s) = true
            /\ tidy (timestamp s) /\ tidy (text s))
         (parse_webvtt_content content).
Proof.
  pose proof (parse_output_ok content) as Hok.
  assert (Htidy : Forall (fun s => tidy (timestamp s) /\ tidy (text s))
                         (parse_webvtt_content content)).
  { unfold parse_webvtt_content.
    destruct (parse_loop_spec (split NL content) 0 []) as (cs & HC & ->).
    rewrite drop_0 in HC. apply (Cues_segments_tidy _ _ HC).
    apply split_char_pieces. }
  rewrite Forall_forall in Hok, Htidy. apply Forall_forall. intros s Hs.
  specialize (Hok s Hs). specialize (Htidy s Hs). unfold seg_ok in Hok.
  apply andb_true_iff in Hok as [Ht Hc].
  split; [by apply truthy_true|]. split; [done|]. exact Htidy.
Qed.

(** ** Ingestion: what is collected from the files *)

Lemma append_chunks_spec env course lecture chunks : forall idx p,
  append_chunks env course lecture idx chunks p
  = mkPending
      (all_documents p ++ map chunk_text chunks)
      (all_metadatas p
       ++ imap (fun k => chunk_metadata course lecture (idx + k)) chunks)
      (all_ids p
       ++ map (uuid4 env) (seq (length (all_ids p)) (length chunks))).
Proof.
  induction chunks as [|c chunks IH]; intros idx p.
  - cbn. rewrite !app_nil_r. by destruct p.
  - cbn [append_chunks]. rewrite IH.
    cbn [all_documents all_metadatas all_ids map length seq imap].
    rewrite !length_app, <- !app_assoc. cbn [length app].
    rewrite Nat.add_0_r, !Nat.add_1_r. f_equal. f_equal. f_equal.
    apply imap_ext. intros k x _. cbn. f_equal. lia.
Qed.

Lemma process_lecture_spec env course p file :
  match lecture_read file with
  | Ok content =>
      exists chunks,
        create_chunks_from_segments (parse_webvtt_content content) CHUNK_SIZE
        = Ok chunks
        /\ Forall chunk_well_formed chunks
        /\ all_documents (process_lecture env course p file)
           = all_documents p ++ map chunk_text chunks
        /\ all_metadatas (process_lecture env course p file)
           = all_metadatas p
             ++ imap (chunk_metadata course (lecture_stem file)) chunks
        /\ all_ids (process_lecture env course p file)
           = all_ids p
             ++ map (uuid4 env) (seq (length (all_ids p)) (length chunks))
  | Raise _ => process_lecture env course p file = p
  end.
Proof.
  unfold process_lecture. destruct (lecture_read file) as [content|e]; [|done].
  cbn [mbind result_bind].
  destruct (chunks_of_transcript content CHUNK_SIZE) as (cs & gs & Hc & _).
  rewrite Hc. exists cs. split; [done|].
  split; [by apply (create_chunks_well_formed _ _ _ Hc)|].
  by rewrite append_chunks_spec.
Qed.

(** X9.  A lecture file is skipped only when it cannot be read: on a
    file that reads, parsing and chunking never raise, the chunks are
    fit for storage, and the run appends their texts, their metadata and
    one fresh identifier each, in order; a file that cannot be read
    leaves the pending lists as they were. *)
Theorem process_lecture_readable env course p file :
  match lecture_read file with
  | Ok content =>
      exists chunks,
        create_chunks_from_segments (parse_webvtt_content content) CHUNK_SIZE
        = Ok chunks
        /\ Forall chunk_well_formed chunks
        /\ all_documents (process_lecture env course p file)
           = all_documents p ++ map chunk_text chunks
        /\ all_metadatas (process_lecture env course p file)
           = all_metadatas p
             ++ imap (chunk_metadata course (lecture_stem file)) chunks
        /\ all_ids (process_lecture env course p file)
           = all_ids p
             ++ map (uuid4 env) (seq (length (all_ids p)) (length chunks))
  | Raise _ => process_lecture env course p file = p
  end.
Proof. apply process_lecture_spec. Qed.

Lemma chunk_metadata_index course lecture idx chunk :
  chunk_metadata course lecture idx chunk !! "chunk_index"
  = Some (MInt (Z.of_nat idx)).
Proof.
  unfold chunk_metadata. rewrite !lookup_insert_ne by done.
  apply lookup_singleton_eq.
Qed.

Lemma chunk_indices_imap course lecture chunks : forall idx,
  chunk_indices (imap (fun k => chunk_metadata course lecture (idx + k)) chunks)
  = map (fun k => MInt (Z.of_nat k)) (seq idx (length chunks)).
Proof.
  unfold chunk_indices.
  induction chunks as [|c chunks IH]; intros idx; [done|].
  rewrite imap_cons. cbn [omap list_omap length seq map].
  rewrite chunk_metadata_index, Nat.add_0_r. f_equal.
  rewrite <- (IH (S idx)). f_equal. apply imap_ext. intros k x _. cbn.
  f_equal. lia.
Qed.

(** X10.  Within one lecture file the chunks are numbered from zero,
    one by one, in the order the assembler returned them: the
    [chunk_index] values appended for a file that reads are
    [0, 1, ..., n - 1]. *)
Theorem chunk_index_contiguous env course p file content chunks :
  lecture_read file = Ok content ->
  create_chunks_from_segments (parse_webvtt_content content) CHUNK_SIZE
  = Ok chunks ->
  chunk_indices
    (drop (length (all_metadatas p))
          (all_metadatas (process_lecture env course p file)))
  = map (fun k => MInt (Z.of_nat k)) (seq 0 (length chunks)).
Proof.
  intros Hr Hc. unfold process_lecture. rewrite Hr. cbn [mbind result_bind].
  rewrite Hc, append_chunks_spec. cbn [all_metadatas].
  rewrite drop_app_length. apply (chunk_indices_imap course _ chunks 0).
Qed.

Lemma chunk_index_contiguous_witness :
  chunk_indices
    (drop 0 (all_metadatas
               (process_lecture
                  (mkIngestEnv "data" None (fun _ => "id") (fun _ => None))
                  "GenAI" (mkPending [] [] []) sample_file)))
  = map (fun k => MInt (Z.of_nat k))
        (seq 0 (length [mkChunk "a b" (Some "0") (Some "2")])).
Proof.
  apply (chunk_index_contiguous
           (mkIngestEnv "data" None (fun _ => "id") (fun _ => None))
           "GenAI" (mkPending [] [] []) sample_file
           ("0 --> 1" +:+ NL +:+ "a" +:+ NL +:+ NL +:+ "1 --> 2" +:+ NL +:+ "b")
           [mkChunk "a b" (Some "0") (Some "2")]);
    reflexivity.
Defined.

Lemma chunk_metadata_stored course lecture idx chunk :
  chunk_well_formed chunk ->
  stored_metadata (chunk_metadata course lecture idx chunk).
Proof.
  intros (_ & [ts Hs] & [te He]). exists course, lecture, ts, te, idx.
  unfold chunk_metadata. by rewrite Hs, He.
Qed.

Lemma process_lecture_inv env course p file :
  parallel env p /\ Forall stored_metadata (all_metadatas p) ->
  parallel env (process_lecture env course p file)
  /\ Forall stored_metadata (all_metadatas (process_lecture env course p file)).
Proof.
  intros [(Hd & Hm & Hi) Hst].
  pose proof (process_lecture_spec env course p file) as H.
  destruct (lecture_read file) as [content|e]; [|by rewrite H].
  destruct H as (chunks & _ & Hwf & Hdoc & Hmeta & Hids).
  split; [split; [|split]|].
  - rewrite Hdoc, Hids, !length_app, !length_map, length_seq. lia.
  - rewrite Hmeta, Hids, !length_app, length_imap, length_map, length_seq. lia.
  - rewrite Hids at 1. rewrite Hids, length_app, length_map, length_seq.
    rewrite seq_app, map_app. cbn [Nat.add]. by rewrite <- Hi.
  - rewrite Hmeta. apply Forall_app. split; [done|].
    apply Forall_lookup. intros i m Hl.
    rewrite list_lookup_imap in Hl.
    destruct (chunks !! i) as [c|] eqn:Ec; [|done]. injection Hl as <-.
    apply chunk_metadata_stored. by apply (Forall_lookup_1 _ _ _ _ Hwf Ec).
Qed.

Lemma collect_pending_inv env folders :
  parallel env (collect_pending env folders)
  /\ Forall stored_metadata (all_metadatas (collect_pending env folders)).
Proof.
  unfold collect_pending.
  assert (H0 : parallel env (mkPending [] [] [])
               /\ Forall stored_metadata (all_metadatas (mkPending [] [] [])))
    by (by repeat split).
  revert H0. generalize (mkPending [] [] []) as p.
  induction folders as [|folder folders IH]; intros p Hp; [done|].
  cbn [foldl]. apply IH. unfold process_course.
  generalize (course_name folder) as course. intros course.
  revert p Hp. induction (lecture_files folder) as [|file files IHf];
    intros p Hp; [done|].
  cbn [foldl]. by apply IHf, process_lecture_inv.
Qed.

(** X11.  The three lists the run collects (texts, metadata,
    identifiers) always have the same length, and the identifiers are
    the first ones [uuid4] handed out, in order: when [uuid4] never
    repeats itself, no identifier occurs twice. *)
Theorem pending_lists_parallel env folders :
  parallel env (collect_pending env folders)
  /\ ((forall a b, uuid4 env a = uuid4 env b -> a = b) ->
      NoDup (all_ids (collect_pending env folders))).
Proof.
  destruct (collect_pending_inv env folders) as [Hp _].
  split; [done|]. intros Hinj. destruct Hp as (_ & _ & ->).
  assert (Inj (=) (=) (uuid4 env)) by (intros a b; apply Hinj).
  apply (NoDup_fmap_2 (uuid4 env)), NoDup_seq.
Qed.

(** X12.  Every metadata entry the run collects has the five keys
    [course], [lecture], [timestamp_start], [timestamp_end] and
    [chunk_index], with strings for the first four (a timestamp is never
    [None]) and a non-negative integer for the last. *)
Theorem collected_metadata_shape env folders :
  Forall stored_metadata (all_metadatas (collect_pending env folders)).
Proof. apply collect_pending_inv. Qed.

(** ** Ingestion: batches and what the store holds afterwards *)

Lemma slice_take {A} (l : list A) i b :
  slice l i (Nat.min (i + b) (length l)) = take b (drop i l).
Proof.
  unfold slice. destruct (decide (i + b <= length l)%nat) as [Hle|Hgt].
  - f_equal. lia.
  - rewrite (take_ge (drop i l) b) by (rewrite length_drop; lia).
    apply take_ge. rewrite length_drop. lia.
Qed.

Lemma slice_take' {A} (l : list A) i b n :
  n = length l -> slice l i (Nat.min (i + b) n) = take b (drop i l).
Proof. intros ->. apply slice_take. Qed.

Lemma batches_concat {A} (b : nat) : forall m (l : list A),
  (length l <= m * b)%nat ->
  concat (map (fun k => take b (drop (k * b) l)) (seq 0 m)) = l.
Proof.
  induction m as [|m IH]; intros l Hl.
  - destruct l; [done|]. cbn in Hl. lia.
  - cbn [seq map concat]. rewrite <- fmap_S_seq.
    change (map ?f (S <$> ?x)) with (map f (map S x)). rewrite map_map.
    cbn [Nat.mul]. rewrite drop_0.
    transitivity (take b l ++ drop b l); [|apply take_drop]. f_equal.
    etrans; [|apply (IH (drop b l)); rewrite length_drop; cbn in Hl; lia].
    f_equal. apply map_ext. intros k. by rewrite drop_drop.
Qed.

Lemma range_step_elem n i :
  i ∈ range_step n batch_size
  <-> (i < n)%nat /\ i = (i / batch_size * batch_size)%nat.
Proof.
  unfold range_step, batch_size.
  pose proof (Nat.div_mod_eq (n + 50 - 1) 50) as Hn.
  pose proof (Nat.mod_upper_bound (n + 50 - 1) 50) as Hn'.
  pose proof (Nat.div_mod_eq i 50) as Hi.
  pose proof (Nat.mod_upper_bound i 50) as Hi'.
  change (map ?f ?l) with (f <$> l). rewrite list_elem_of_fmap. split.
  - intros (k & -> & Hk). apply elem_of_seq in Hk.
    rewrite Nat.div_mul by done. lia.
  - intros [Hlt Heq]. exists (i / 50)%nat. split; [done|].
    apply elem_of_seq. split; [lia|].
    enough (i / 50 < (n + 50 - 1) / 50)%nat by lia.
    apply Nat.Div0.div_lt_upper_bound. lia.
Qed.

(** X13.  The batches cut a list of pending chunks into consecutive
    pieces that together give the list back, in order; there are
    [ceil(n / 50)] of them, none is empty and none has more than 50
    elements. *)
Theorem batches_partition {A} (l : list A) :
  concat (map (fun i => slice l i (Nat.min (i + batch_size) (length l)))
              (range_step (length l) batch_size)) = l
  /\ length (range_step (length l) batch_size)
     = ((length l + 49) / 50)%nat
  /\ Forall (fun i =>
               (0 < length (slice l i (Nat.min (i + batch_size) (length l)))
                <= batch_size)%nat)
            (range_step (length l) batch_size).
Proof.
  split; [|split].
  - unfold range_step. rewrite map_map.
    etrans; [|apply (batches_concat batch_size
                       ((length l + batch_size - 1) / batch_size) l)].
    + f_equal. apply map_ext. intros k. apply slice_take.
    + unfold batch_size.
      pose proof (Nat.div_mod_eq (length l + 50 - 1) 50).
      pose proof (Nat.mod_upper_bound (length l + 50 - 1) 50). lia.
  - unfold range_step, batch_size. rewrite length_map, length_seq.
    f_equal. lia.
  - apply Forall_forall. intros i [Hlt _]%range_step_elem.
    rewrite slice_take, length_take, length_drop. unfold batch_size. lia.
Qed.

Lemma filler_inj a b : filler a = filler b -> a = b.
Proof.
  revert b. induction a as [|a IH]; intros [|b] H; try done.
  injection H as H. f_equal. by apply IH.
Qed.

Lemma pending_entry_unique p id e e' :
  NoDup (all_ids p) -> pending_entry p id e -> pending_entry p id e' -> e = e'.
Proof.
  intros Hnd (k & d & m & Hk & Hd & Hm & ->) (k' & d' & m' & Hk' & Hd' & Hm' & ->).
  assert (k = k') as <- by apply (NoDup_lookup _ _ _ _ Hnd Hk Hk').
  congruence.
Qed.

Lemma insert_entries_lookup (G : string -> Entry -> Prop)
    (kvs : list (string * (string * gmap string meta_value))) :
  (forall id e e', G id e -> G id e' -> e = e') ->
  forall c : Collection,
    (forall id d m, (id, (d, m)) ∈ kvs -> G id (mkEntry d m)) ->
    (forall id e, c !! id = Some e -> G id e) ->
    forall id e,
      foldl (fun c item => <[item.1 := mkEntry item.2.1 item.2.2]> c) c kvs
        !! id = Some e
      <-> c !! id = Some e
          \/ exists d m, (id, (d, m)) ∈ kvs /\ e = mkEntry d m.
Proof.
  intros Gfun. induction kvs as [|[k [d0 m0]] kvs IH]; intros c Hkvs Hc id e.
  - cbn [foldl]. split; [by left|]. intros [?|(d & m & Hin & _)]; [done|].
    by apply not_elem_of_nil in Hin.
  - cbn [foldl fst snd]. rewrite IH.
    + split.
      * intros [Hl|(d & m & Hin & ->)].
        -- destruct (decide (k = id)) as [->|Hne].
           ++ rewrite lookup_insert_eq in Hl. injection Hl as <-.
              right. exists d0, m0. split; [by left|done].
           ++ rewrite lookup_insert_ne in Hl by done. by left.
        -- right. exists d, m. split; [by right|done].
      * intros [Hl|(d & m & Hin & ->)].
        -- left. destruct (decide (k = id)) as [->|Hne].
           ++ rewrite lookup_insert_eq. f_equal.
              apply (Gfun id); [|by apply Hc]. apply Hkvs. by left.
           ++ by rewrite lookup_insert_ne.
        -- apply elem_of_cons in Hin as [[= -> -> ->]|Hin].
           ++ left. by rewrite lookup_insert_eq.
           ++ right. by exists d, m.
    + intros id' d m Hin. apply Hkvs. by right.
    + intros id' e' Hl. destruct (decide (k = id')) as [->|Hne].
      * rewrite lookup_insert_eq in Hl. injection Hl as <-. apply Hkvs. by left.
      * rewrite lookup_insert_ne in Hl by done. by apply Hc.
Qed.

Lemma batch_elem p i id d m :
  (id, (d, m))
    ∈ zip (take batch_size (drop i (all_ids p)))
          (zip (take batch_size (drop i (all_documents p)))
               (take batch_size (drop i (all_metadatas p))))
  <-> batch_entry p i id (mkEntry d m).
Proof.
  rewrite list_elem_of_lookup. unfold batch_entry. split.
  - intros (t & Ht).
    apply lookup_zip_with_Some in Ht as (x & y & [= <- <-] & Hx & Hy).
    apply lookup_zip_with_Some in Hy as (x' & y' & [= <- <-] & Hx' & Hy').
    apply lookup_take_Some in Hx as [Hx Hlt].
    apply lookup_take_Some in Hx' as [Hx' _].
    apply lookup_take_Some in Hy' as [Hy' _].
    rewrite lookup_drop in Hx. rewrite lookup_drop in Hx'.
    rewrite lookup_drop in Hy'.
    exists (i + t)%nat, d, m. repeat split; try done; lia.
  - intros (k & d' & m' & Hk & Hid & Hd & Hm & [= -> ->]).
    exists (k - i)%nat. apply lookup_zip_with_Some.
    exists id, (d', m'). split; [done|].
    split; [|apply lookup_zip_with_Some; exists d', m'; split; [done|split]].
    all: apply lookup_take_Some; split; [|lia]; rewrite lookup_drop.
    all: by replace (i + (k - i))%nat with k by lia.
Qed.

Lemma add_batch_lookup env p (c : Collection) i :
  parallel env p -> NoDup (all_ids p) ->
  (forall id e, c !! id = Some e -> pending_entry p id e) ->
  forall id e,
    add_batch env p c i !! id = Some e
    <-> c !! id = Some e \/ (add_outcome env i = None /\ batch_entry p i id e).
Proof.
  intros (Hd & Hm & _) Hnd Hc id e. unfold add_batch, collection_add.
  destruct (add_outcome env i) as [err|].
  { split; [by left|]. by intros [?|[? _]]. }
  cbv zeta.
  rewrite (slice_take' (all_documents p)), (slice_take' (all_metadatas p)),
    (slice_take' (all_ids p)) by congruence.
  rewrite (insert_entries_lookup (pending_entry p)).
  - split; (intros [Hl|H]; [by left|right]).
    + destruct H as (d & m & Hin & ->). split; [done|]. by apply batch_elem.
    + destruct H as [_ H]. pose proof H as (k & d & m & _ & _ & _ & _ & ->).
      exists d, m. split; [by apply batch_elem|done].
  - intros id0 e0 e0'. by apply pending_entry_unique.
  - intros id0 d m (k & d' & m' & _ & Hid & Hdoc & Hmeta & [= -> ->])%batch_elem.
    by exists k, d', m'.
  - exact Hc.
Qed.

Lemma add_batches_lookup env p starts : forall c : Collection,
  parallel env p -> NoDup (all_ids p) ->
  (forall id e, c !! id = Some e -> pending_entry p id e) ->
  forall id e,
    foldl (add_batch env p) c starts !! id = Some e
    <-> c !! id = Some e
        \/ exists i, i ∈ starts /\ add_outcome env i = None
                     /\ batch_entry p i id e.
Proof.
  induction starts as [|i starts IH]; intros c Hp Hnd Hc id e.
  - cbn [foldl]. split; [by left|]. intros [?|(i & Hin & _)]; [done|].
    by apply not_elem_of_nil in Hin.
  - cbn [foldl]. rewrite IH; [|done|done|].
    + rewrite (add_batch_lookup env p c i Hp Hnd Hc). split.
      * intros [[Hl|[Ho Hb]]|(j & Hin & Ho & Hb)]; [by left| |].
        -- right. exists i. split; [by left|done].
        -- right. exists j. split; [by right|done].
      * intros [Hl|(j & Hin & Ho & Hb)]; [by left; left|].
        apply elem_of_cons in Hin as [->|Hin]; [by left; right|].
        right. by exists j.
    + intros id0 e0 [Hl|[_ Hb]]%(add_batch_lookup env p c i Hp Hnd Hc);
        [by apply Hc|].
      destruct Hb as (k & d & m & _ & ? & ? & ? & ->). by exists k, d, m.
Qed.

Lemma ingest_data_present env (store : Store) folders :
  data_dir env = Some folders ->
  ingest_data env store
  = (Ok (),
     <[COLLECTION_NAME :=
         foldl (add_batch env (collect_pending env folders)) ∅
               (range_step (length (all_documents (collect_pending env folders)))
                           batch_size)]> store).
Proof.
  intros Hdir. unfold ingest_data, delete_collection, create_collection.
  destruct (store !! COLLECTION_NAME) as [c|] eqn:E.
  - rewrite lookup_delete_eq, Hdir. unfold collect_pending.
    by rewrite insert_insert_eq, insert_delete_eq.
  - rewrite E, Hdir. unfold collect_pending. by rewrite insert_insert_eq.
Qed.

(** X14.  After a run that found the data directory, and provided
    [uuid4] never repeats itself, the collection holds exactly the
    chunks of the batches whose [add] did not fail: the entry under an
    identifier is the text and the metadata collected with it, and the
    chunks of a batch whose [add] raised are absent, whatever the batches
    before and after did. *)
Theorem ingest_store_contents env (store : Store) folders :
  data_dir env = Some folders ->
  (forall a b, uuid4 env a = uuid4 env b -> a = b) ->
  exists collection : Collection,
    ingest_data env store = (Ok (), <[COLLECTION_NAME := collection]> store)
    /\ forall id e,
         collection !! id = Some e
         <-> exists k doc meta,
               all_ids (collect_pending env folders) !! k = Some id
               /\ all_documents (collect_pending env folders) !! k = Some doc
               /\ all_metadatas (collect_pending env folders) !! k = Some meta
               /\ e = mkEntry doc meta
               /\ add_outcome env (k / batch_size * batch_size) = None.
Proof.
  intros Hdir Hinj. eexists. split; [by apply ingest_data_present|].
  destruct (collect_pending_inv env folders) as [Hp _].
  assert (Hnd : NoDup (all_ids (collect_pending env folders))).
  { destruct Hp as (_ & _ & ->).
    assert (Inj (=) (=) (uuid4 env)) by (intros a b; apply Hinj).
    apply (NoDup_fmap_2 (uuid4 env)), NoDup_seq. }
  intros id e. rewrite add_batches_lookup; [|done|done|done].
  destruct Hp as (Hd & _ & _). unfold batch_entry, batch_size.
  split.
  - intros [Hl|(i & Hin & Ho & k & d & m & Hk & Hid & Hdoc & Hm & ->)]; [done|].
    exists k, d, m. repeat split; try done.
    apply range_step_elem in Hin as [_ Hi]. unfold batch_size in Hi.
    replace (k / 50 * 50)%nat with i; [done|].
    rewrite Hi. f_equal. apply (Nat.div_unique k 50 (i / 50) (k - i)); lia.
  - intros (k & d & m & Hid & Hdoc & Hm & -> & Ho). right.
    exists (k / 50 * 50)%nat.
    pose proof (Nat.div_mod_eq k 50). pose proof (Nat.mod_upper_bound k 50).
    apply lookup_lt_Some in Hdoc as Hlt.
    split; [|split; [done|]].
    + apply range_step_elem. unfold batch_size. split; [lia|].
      by rewrite Nat.div_mul.
    + exists k, d, m. repeat split; try done; lia.
Qed.

Lemma ingest_store_contents_witness :
  exists collection : Collection,
    ingest_data
      (mkIngestEnv "data" (Some [mkCourseFolder "GenAI" [sample_file]])
         filler (fun _ => None))
      ∅
    = (Ok (), <[COLLECTION_NAME := collection]> ∅)
    /\ collection !! filler 0
       = Some (mkEntry "a b" (chunk_metadata "GenAI" "Lecture 1" 0
                                (mkChunk "a b" (Some "0") (Some "2")))).
Proof.
  destruct (ingest_store_contents
              (mkIngestEnv "data" (Some [mkCourseFolder "GenAI" [sample_file]])
                 filler (fun _ => None))
              ∅ [mkCourseFolder "GenAI" [sample_file]])
    as (collection & Hrun & Hc).
  - reflexivity.
  - exact filler_inj.
  - exists collection. split; [exact Hrun|]. apply Hc.
    exists 0%nat, "a b",
      (chunk_metadata "GenAI" "Lecture 1" 0 (mkChunk "a b" (Some "0") (Some "2"))).
    repeat split; reflexivity.
Defined.

Lemma wipe_collection (st : Store) :
  create_collection COLLECTION_NAME
    match delete_collection COLLECTION_NAME st with
    | Ok st' => st'
    | Raise _ => st
    end
  = Ok (<[COLLECTION_NAME := ∅]> st).
Proof.
  unfold delete_collection, create_collection.
  destruct (st !! COLLECTION_NAME) as [c|] eqn:E.
  - by rewrite lookup_delete_eq, insert_delete_eq.
  - by rewrite E.
Qed.

(** X15.  A run touches nothing but its own collection: every other
    collection of the store is as before, whether the run ends well or
    not; its own collection exists afterwards; and the run ends without
    an exception exactly when the data directory exists (unreadable
    files and failed batches do not make it raise). *)
Theorem ingest_frame env (store : Store) :
  (forall name, name <> COLLECTION_NAME ->
                snd (ingest_data env store) !! name = store !! name)
  /\ is_Some (snd (ingest_data env store) !! COLLECTION_NAME)
  /\ (fst (ingest_data env store) = Ok () <-> is_Some (data_dir env)).
Proof.
  unfold ingest_data. rewrite wipe_collection.
  destruct (data_dir env) as [folders|]; cbn [fst snd].
  - split; [|split].
    + intros name Hne. by rewrite !lookup_insert_ne.
    + rewrite lookup_insert_eq. by eexists.
    + split; [by eexists|done].
  - split; [|split].
    + intros name Hne. by rewrite lookup_insert_ne.
    + rewrite lookup_insert_eq. by eexists.
    + split; [done|]. by intros [? ?].
Qed.

(** X16.  What ingestion writes is what a query shows: the source built
    from the metadata of an ingested chunk carries that chunk's course,
    lecture and timestamps, never the defaults [Unknown] or
    [00:00:00.000]. *)
Theorem ingested_metadata_round_trip course lecture idx chunk document t_start t_end :
  timestamp_start chunk = Some t_start ->
  timestamp_end chunk = Some t_end ->
  make_source (chunk_metadata course lecture idx chunk) document
  = mkSource (MStr course) (MStr lecture) (MStr t_start) (MStr t_end)
             (excerpt document).
Proof.
  intros Hs He. unfold make_source, dict_get, chunk_metadata.
  rewrite Hs, He. cbn [meta_of_timestamp].
  rewrite lookup_insert_eq.
  rewrite lookup_insert_ne, lookup_insert_eq by done.
  rewrite !(lookup_insert_ne _ "course"), !(lookup_insert_ne _ "lecture") by done.
  rewrite lookup_insert_eq.
  rewrite lookup_insert_ne, lookup_insert_eq by done.
  done.
Qed.

Lemma ingested_metadata_round_trip_witness :
  make_source
    (chunk_metadata "GenAI" "Lecture 1" 0 (mkChunk "a b" (Some "0") (Some "2")))
    "a b"
  = mkSource (MStr "GenAI") (MStr "Lecture 1") (MStr "0") (MStr "2") "a b".
Proof.
  apply (ingested_metadata_round_trip "GenAI" "Lecture 1" 0
           (mkChunk "a b" (Some "0") (Some "2")) "a b" "0" "2");
    reflexivity.
Defined.

(** ** Query handler: the context block, malformed answers, the text
       streamed *)

Lemma context_items_ok results docs : forall i,
  (i + length docs <= length (ids results))%nat ->
  context_items results i docs
  = Ok (zip_with context_line (drop i (ids results)) docs).
Proof.
  induction docs as [|d docs IH]; intros i Hle.
  - cbn. by destruct (drop i (ids results)).
  - cbn [context_items length] in *.
    destruct (lookup_lt_is_Some_2 (ids results) i) as [id Hid]; [lia|].
    rewrite (index_lookup _ _ _ Hid). cbn [mbind result_bind].
    rewrite IH by lia. cbn [mbind result_bind].
    rewrite (drop_S _ _ _ Hid), Nat.add_1_r. done.
Qed.

Lemma context_items_raises results docs : forall i,
  docs <> [] -> (length (ids results) < i + length docs)%nat ->
  context_items results i docs = Raise IndexError.
Proof.
  induction docs as [|d docs IH]; intros i Hne Hlt; [done|].
  cbn [context_items length] in *. unfold index at 1.
  destruct (ids results !! i) as [id|] eqn:Hid; [|done].
  cbn [mbind result_bind]. apply lookup_lt_Some in Hid.
  rewrite IH; [done| |lia]. destruct docs; [cbn in Hlt; lia|done].
Qed.

(** X17.  The context block lists the retrieved texts in the store's
    order, each after its identifier, separated by an empty line (an
    empty answer gives an empty block); identifiers beyond the last text
    are ignored, and a text without identifier makes the block raise
    [IndexError]. *)
Theorem context_block results :
  ((length (documents results) <= length (ids results))%nat ->
   build_context results
   = Ok (join (NL +:+ NL)
              (zip_with context_line (ids results) (documents results))))
  /\ ((length (ids results) < length (documents results))%nat ->
      build_context results = Raise IndexError).
Proof.
  unfold build_context. split; intros H.
  - rewrite context_items_ok by (cbn; lia). by rewrite drop_0.
  - rewrite context_items_raises; [done| |cbn; lia].
    destruct (documents results); [cbn in H; lia|done].
Qed.

Lemma sources_loop_raises results n : forall a acc,
  (a <= length (metadatas results))%nat ->
  (a <= length (documents results))%nat ->
  (length (metadatas results) < a + n)%nat
  \/ (length (documents results) < a + n)%nat ->
  sources_loop results (seq a n) acc = Raise IndexError.
Proof.
  induction n as [|n IH]; intros a acc Hm0 Hd0 Hlt; [lia|].
  cbn [seq sources_loop]. unfold index.
  destruct (metadatas results !! a) as [m|] eqn:Hm; [|done].
  destruct (documents results !! a) as [d|] eqn:Hd; [|done].
  cbn [mbind result_bind]. apply lookup_lt_Some in Hm, Hd. apply IH; lia.
Qed.

(** X18.  Building the sources either returns one source per identifier
    or raises [IndexError]; it raises exactly when the store's answer has
    fewer metadata entries or fewer texts than identifiers, and texts or
    metadata beyond the last identifier are ignored. *)
Theorem build_sources_outcome results :
  match build_sources results with
  | Ok sources =>
      (length (ids results) <= length (metadatas results))%nat
      /\ (length (ids results) <= length (documents results))%nat
      /\ sources
         = zip_with make_source
             (take (length (ids results)) (metadatas results))
             (take (length (ids results)) (documents results))
  | Raise e =>
      e = IndexError
      /\ ((length (metadatas results) < length (ids results))%nat
          \/ (length (documents results) < length (ids results))%nat)
  end.
Proof.
  unfold build_sources.
  destruct (decide (length (ids results) <= length (metadatas results)
                    /\ length (ids results) <= length (documents results))%nat)
    as [[Hm Hd]|Hnot].
  - rewrite sources_loop_spec by (cbn; lia). by rewrite !drop_0.
  - rewrite sources_loop_raises by (cbn; lia). split; [done|lia].
Qed.

(** X19.  A store answer whose lists do not go together (a text without
    identifier, an identifier without text or without metadata) ends the
    request with HTTP status 500 and the detail of the [IndexError],
    [list index out of range]; the model is not called. *)
Theorem malformed_answer_is_http_500 P w question results :
  classify question = None ->
  collection_query w question 5 = Ok results ->
  (length (ids results) < length (documents results))%nat
  \/ (length (metadatas results) < length (ids results))%nat
  \/ (length (documents results) < length (ids results))%nat ->
  query_lecture P w question
  = (HTTPException 500 "list index out of range", [CollectionQuery question 5]).
Proof.
  intros Hc%classify_retrieval Hq Hbad.
  unfold query_lecture, retrieve. rewrite Hc, Hq. cbn [mbind result_bind].
  unfold build_context.
  destruct (decide (length (ids results) < length (documents results))%nat)
    as [Hlt|Hge].
  - rewrite context_items_raises; [done| |cbn; lia].
    destruct (documents results); [cbn in Hlt; lia|done].
  - rewrite context_items_ok by (cbn; lia). cbn [mbind result_bind].
    unfold build_sources. rewrite sources_loop_raises by (cbn; lia). done.
Qed.

Lemma malformed_answer_is_http_500_witness :
  query_lecture "persona"
    (mkWorld (fun _ _ => Ok (mkQueryResult ["text"] ["id-1"] []))
             (fun _ => Ok (mkModelStream [Some "never asked"] None)))
    "What is fine-tuning?"
  = (HTTPException 500 "list index out of range",
     [CollectionQuery "What is fine-tuning?" 5]).
Proof.
  apply (malformed_answer_is_http_500 "persona"
           (mkWorld (fun _ _ => Ok (mkQueryResult ["text"] ["id-1"] []))
                    (fun _ => Ok (mkModelStream [Some "never asked"] None)))
           "What is fine-tuning?" (mkQueryResult ["text"] ["id-1"] [])).
  - reflexivity.
  - reflexivity.
  - right. left. cbn. lia.
Defined.

(** X20.  An excerpt is never longer than 203 characters: it has the
    length of the text when that is at most 200 and exactly 203
    otherwise, so for a text of 201 or 202 characters the excerpt is
    longer than the text it abridges. *)
Theorem excerpt_length document :
  len (excerpt document) = (if len document <=? 200 then len document else 203)
  /\ len (excerpt document) <= 203.
Proof.
  unfold excerpt. rewrite Z.gtb_ltb.
  destruct (Z.ltb_spec 200 (len document)) as [Hgt|Hle].
  - replace (len document <=? 200) with false
      by (symmetry; apply Z.leb_gt; lia).
    destruct (slice_to_prefix 200 document) as (rest & _ & Hl).
    rewrite len_app. unfold len in *. rewrite Hl.
    change (String.length "...") with 3%nat. lia.
  - replace (len document <=? 200) with true
      by (symmetry; apply Z.leb_le; lia). lia.
Qed.


Lemma join_empty_cons x l : join "" (x :: l) = x +:+ join "" l.
Proof. destruct l; [by rewrite app_empty_r|by rewrite join_cons]. Qed.

Lemma join_empty_app l1 l2 : join "" (l1 ++ l2) = join "" l1 +:+ join "" l2.
Proof.
  induction l1 as [|x l1 IH]; [done|].
  change ((x :: l1) ++ l2) with (x :: (l1 ++ l2)).
  by rewrite !join_empty_cons, IH, app_assoc'.
Qed.

Lemma join_chars s :
  join "" (map (fun char => String char EmptyString) (list_ascii_of_string s)) = s.
Proof.
  induction s as [|c s IH]; [done|]. cbn [list_ascii_of_string map].
  by rewrite join_empty_cons, IH.
Qed.

Lemma content_text_app evs1 evs2 :
  content_text (evs1 ++ evs2) = content_text evs1 +:+ content_text evs2.
Proof. unfold content_text. by rewrite omap_app, join_empty_app. Qed.

Lemma content_text_contents {A} (f : A -> string) (l : list A) :
  content_text (map (fun x => Content (f x)) l) = join "" (map f l).
Proof.
  unfold content_text. f_equal. induction l as [|x l IH]; [done|].
  cbn [map omap list_omap]. by rewrite <- IH.
Qed.

(** X22.  The casual stream spells the canned response: the data of its
    content events, put together in order, is the response of the
    question's category, character for character. *)
Theorem casual_text_round_trip P w question c :
  classify question = Some c ->
  exists body,
    fst (query_lecture P w question) = StreamingResponse body
    /\ content_text (events body) = casual_responses c.
Proof.
  intros [Hc Hs]%classify_casual. unfold query_lecture. rewrite Hc.
  eexists. split; [done|]. unfold generate_casual. rewrite Hs.
  cbn [events]. rewrite content_text_app.
  rewrite (content_text_contents (fun char => String char EmptyString)).
  rewrite join_chars. apply app_empty_r.
Qed.

Lemma casual_text_round_trip_witness :
  exists body,
    fst (query_lecture "persona" world_model_down "Thanks a lot")
    = StreamingResponse body
    /\ content_text (events body) = casual_responses thanks.
Proof.
  apply (casual_text_round_trip "persona" world_model_down "Thanks a lot" thanks).
  reflexivity.
Defined.

Lemma join_delta_contents ds :
  join "" (omap delta_content ds) = join "" (map (default "") ds).
Proof.
  induction ds as [|d ds IH]; [done|]. cbn [map omap list_omap].
  rewrite join_empty_cons, <- IH.
  destruct d as [[|c f]|]; cbn [delta_content truthy default]; try done.
  by rewrite join_empty_cons.
Qed.

(** X23.  Leaving out the empty and missing fragments loses no text: the
    data of the content events of a retrieval stream, put together, is
    everything the model streamed, followed by the closing note when the
    stream ended well and by nothing when it broke. *)
Theorem retrieval_text_round_trip P w question context_str sources stream :
  classify question = None ->
  prepare w question = Ok (context_str, sources) ->
  chat_completions_create w (prompt_messages P context_str question)
  = Ok stream ->
  exists body,
    fst (query_lecture P w question) = StreamingResponse body
    /\ content_text (events body)
       = join "" (map (default "") (deltas stream))
         +:+ match stream_error stream with
             | Some _ => ""
             | None => closing_message
             end.
Proof.
  intros Hc%classify_retrieval Hp Hm.
  unfold query_lecture, retrieve. unfold prepare in Hp. rewrite Hc.
  destruct (collection_query w question 5) as [results|e];
    cbn [mbind result_bind] in *; [|done].
  destruct (build_context results) as [ctx|e];
    cbn [mbind result_bind] in *; [|done].
  destruct (build_sources results) as [srcs|e];
    cbn [mbind result_bind] in *; [|done].
  injection Hp as -> ->. unfold generate. rewrite Hm.
  destruct (stream_error stream) as [e|]; eexists; (split; [done|]);
    cbn [events fst].
  - rewrite (content_text_contents (fun x => x)), map_id, app_empty_r.
    apply join_delta_contents.
  - rewrite content_text_app, (content_text_contents (fun x => x)), map_id.
    rewrite join_delta_contents. f_equal.
Qed.

Lemma retrieval_text_round_trip_witness :
  exists body,
    fst (query_lecture "persona" world_up "What is fine-tuning?")
    = StreamingResponse body
    /\ content_text (events body) = "Good question" +:+ closing_message.
Proof.
  apply (retrieval_text_round_trip "persona" world_up "What is fine-tuning?"
           "[ID: id-1] Fine-tuning adapts a pretrained model."
           [make_source
              {[ "course" := MStr "GenAI";
                 "lecture" := MStr "Fine-tuning";
                 "timestamp_start" := MStr "00:00:01.000";
                 "timestamp_end" := MStr "00:01:00.000";
                 "chunk_index" := MInt 0 ]}
              "Fine-tuning adapts a pretrained model."]
           (mkModelStream [Some "Good "; Some ""; None; Some "question"] None));
    reflexivity.
Defined.

(** ** The pipeline from text to pending chunks *)

(** X24.  On segments as the parser emits them whose starts are not
    empty, every chunk's time range spans its run of segments: it starts
    at the start of the run's first segment and ends at the end of its
    last one, the runs being consecutive and covering the input. *)
Theorem chunk_spans_its_run segs T :
  Forall (fun s => seg_ok s = true) segs ->
  Forall (fun s => truthy (seg_start s) = true) segs ->
  exists cs gs,
    create_chunks_from_segments segs T = Ok cs
    /\ concat gs = segs
    /\ Forall2 (fun g c =>
         exists s1 sn e,
           head g = Some s1 /\ last g = Some sn
           /\ timestamp_start c = Some (seg_start s1)
           /\ seg_end sn = Ok e /\ timestamp_end c = Some e) gs cs.
Proof. apply chunk_time_range. Qed.

Lemma chunk_spans_its_run_witness :
  exists cs gs,
    create_chunks_from_segments
      [mkSegment "0 --> 1" "a"; mkSegment "1 --> 2" "bc";
       mkSegment "2 --> 3" "d"] 3 = Ok cs
    /\ concat gs
       = [mkSegment "0 --> 1" "a"; mkSegment "1 --> 2" "bc";
          mkSegment "2 --> 3" "d"]
    /\ Forall2 (fun g c =>
         exists s1 sn e,
           head g = Some s1 /\ last g = Some sn
           /\ timestamp_start c = Some (seg_start s1)
           /\ seg_end sn = Ok e /\ timestamp_end c = Some e) gs cs.
Proof.
  apply (chunk_spans_its_run
           [mkSegment "0 --> 1" "a"; mkSegment "1 --> 2" "bc";
            mkSegment "2 --> 3" "d"] 3);
    repeat constructor.
Defined.

(** X25.  Parsing and chunking compose without an exception: for every
    input text and every threshold the assembler returns on what the
    parser emits, its chunks are fit for storage, and their texts joined
    by a space are the segment texts joined by a space. *)
Theorem pipeline_never_raises content T :
  exists cs,
    create_chunks_from_segments (parse_webvtt_content content) T = Ok cs
    /\ Forall chunk_well_formed cs
    /\ join " " (map chunk_text cs)
       = join " " (map text (parse_webvtt_content content)).
Proof.
  destruct (create_chunks_spec _ T (parse_output_ok content))
    as (cs & gs & Hc & Hp & HF & _).
  exists cs. split; [done|].
  split; [by apply (create_chunks_well_formed _ _ _ Hc)|].
  by rewrite (chunk_texts_of_groups _ _ HF),
    (join_groups _ (groups_nonempty _ _ HF)), Hp.
Qed.

Lemma process_lecture_chunks env course p file :
  all_documents (process_lecture env course p file)
  = all_documents p ++ map chunk_text (lecture_chunks file)
  /\ all_metadatas (process_lecture env course p file)
     = all_metadatas p
       ++ imap (chunk_metadata course (lecture_stem file)) (lecture_chunks file).
Proof.
  pose proof (process_lecture_spec env course p file) as H.
  unfold lecture_chunks. destruct (lecture_read file) as [content|e].
  - destruct H as (chunks & -> & _ & Hd & Hm & _). done.
  - rewrite H. cbn. by rewrite !app_nil_r.
Qed.

Lemma process_course_chunks env folder : forall p,
  all_documents (process_course env p folder)
  = all_documents p
    ++ map chunk_text (concat (map lecture_chunks (lecture_files folder)))
  /\ all_metadatas (process_course env p folder)
     = all_metadatas p
       ++ concat (map (fun file =>
                         imap (chunk_metadata (course_name folder)
                                              (lecture_stem file))
                              (lecture_chunks file))
                      (lecture_files folder)).
Proof.
  unfold process_course. generalize (course_name folder) as course.
  intros course. induction (lecture_files folder) as [|file files IH]; intros p.
  - cbn. by rewrite !app_nil_r.
  - cbn [foldl map concat]. destruct (IH (process_lecture env course p file))
      as [-> ->].
    destruct (process_lecture_chunks env course p file) as [-> ->].
    by rewrite map_app, <- !app_assoc.
Qed.

(** X26.  The run collects the chunks folder by folder and, within a
    folder, file by file, the chunks of a file in the assembler's order;
    a file that cannot be read contributes nothing and hides no other
    file.  The texts and the metadata (with the folder's name as course
    and the file's stem as lecture) follow that order. *)
Theorem collected_in_order env folders :
  all_documents (collect_pending env folders)
  = map chunk_text
      (concat (map (fun folder =>
                      concat (map lecture_chunks (lecture_files folder)))
                   folders))
  /\ all_metadatas (collect_pending env folders)
     = concat (map (fun folder =>
                      concat (map (fun file =>
                                     imap (chunk_metadata (course_name folder)
                                                          (lecture_stem file))
                                          (lecture_chunks file))
                                  (lecture_files folder)))
                   folders).
Proof.
  unfold collect_pending.
  enough (H : forall p,
    all_documents (foldl (process_course env) p folders)
    = all_documents p
      ++ map chunk_text
           (concat (map (fun folder =>
                           concat (map lecture_chunks (lecture_files folder)))
                        folders))
    /\ all_metadatas (foldl (process_course env) p folders)
       = all_metadatas p
         ++ concat (map (fun folder =>
                           concat (map (fun file =>
                                          imap (chunk_metadata
                                                  (course_name folder)
                                                  (lecture_stem file))
                                               (lecture_chunks file))
                                       (lecture_files folder)))
                        folders)) by apply (H (mkPending [] [] [])).
  induction folders as [|folder folders IH]; intros p.
  - cbn. by rewrite !app_nil_r.
  - cbn [foldl map concat]. destruct (IH (process_course env p folder))
      as [-> ->].
    destruct (process_course_chunks env folder p) as [-> ->].
    by rewrite map_app, <- !app_assoc.
Qed.
